(** * gopar: a Parsec-like parser-combinator library for Go (parsec.go)

    Shallow embedding of [parsec.go] and the properties of its cursor,
    primitive matchers and combinators.

    A Go [Parser] is a function [func(st *ParseState) (interface{}, error)]
    that mutates the cursor in place.  Here the cursor is passed
    explicitly: a parser takes the cursor and gives back the returned
    pair together with the cursor as the call left it.  [Many] and
    [ManyTill] recurse without a bound in Go; the embedding threads a
    bound on the nesting depth of these recursive calls (the fuel) through
    every parser, and a run that exceeds it ends in [OutOfFuel]. *)

From Stdlib Require Import ZArith List Bool Ascii String Lia.
Import ListNotations.

Open Scope string_scope.
Open Scope Z_scope.

(** ** Data model *)

(** [interface{}] payloads the library produces: [nil], a byte, a string,
    or a [[]interface{}] of payloads. *)
#[warnings="-register-all"]
Inductive Value : Type :=
| VNil
| VByte (c : ascii)
| VString (s : string)
| VList (xs : list Value).

(** An operand of [fmt.Sprintf]. *)
Inductive FmtArg : Type :=
| ArgByte (c : ascii)
| ArgString (s : string).

(** [type ParseState struct { Source string; Pos int; Line int }].
    [Pos] and [Line] are Go [int]s, taken as integers.  [Pos] is only ever
    incremented below [len(Source)] or set back to an earlier value, so it
    cannot leave the range of [int].  [Line] only changes by [st.Line++],
    once per consumed newline byte; the embedding does not wrap it, a
    [Line] started at 1 would need 2^63 - 1 such increments (2^31 - 1 where
    [int] has 32 bits) to wrap.  [Line] is thus the count of these
    increments; the value the [int] holds is [Line_int], the count wrapped
    into the range of [int], and [next_int] is the step that wraps. *)
Record ParseState : Type := mkState {
  Source : string;
  Pos : Z;
  Line : Z
}.

(** [type ParseErr struct { Reason string; Line int }].  [Reason] is the
    result of [fmt.Sprintf format args...]; [fmt] is outside the
    repository, so the reason is kept as the format and its operands.
    The field [Line] is named [ErrLine] here, [Line] being the cursor's. *)
Record ParseErr : Type := mkErr {
  ReasonFormat : string;
  ReasonArgs : list FmtArg;
  ErrLine : Z
}.

(** The pair [(interface{}, error)] a parser returns.  Every parser of the
    library returns a [nil] value next to a non-nil error, and the
    combinators drop the value whenever the error is non-nil. *)
Inductive Result : Type :=
| Ok (x : Value)
| Err (e : ParseErr).

(** How a call of a parser ends: it returns, leaving the cursor [st]; it
    panics (an index out of range or a failed type assertion); or the
    recursion went deeper than the fuel allows. *)
Inductive Outcome : Type :=
| Returns (r : Result) (st : ParseState)
| Panics
| OutOfFuel.

Definition Parser : Type := nat -> ParseState -> Outcome.

(** [len(st.Source)] *)
Definition len (s : string) : Z := Z.of_nat (String.length s).

Definition setPos (st : ParseState) (p : Z) : ParseState :=
  mkState (Source st) p (Line st).

(** [bytes.IndexByte(set, c)]: index of the first [c] in [set], or -1. *)
Fixpoint IndexByte (set : string) (c : ascii) : Z :=
  match set with
  | EmptyString => -1
  | String.String b rest =>
      if Ascii.eqb b c then 0
      else let i := IndexByte rest c in
           if i <? 0 then -1 else i + 1
  end.

Definition newline : ascii := "010"%char.

(** ** Cursor *)

(** What [next] hands back: the byte, the flag, and the cursor. *)
Inductive NextResult : Type :=
| NextRet (c : ascii) (ok : bool) (st : ParseState)
| NextPanic.

(** [func (st *ParseState) next(pred func(byte) bool) (byte, bool)].
    With [Pos] negative, [st.Source[st.Pos]] panics. *)
Definition next (pred : ascii -> bool) (st : ParseState) : NextResult :=
  if Pos st <? len (Source st) then
    if Pos st <? 0 then NextPanic
    else
      match String.get (Z.to_nat (Pos st)) (Source st) with
      | None => NextPanic
      | Some c =>
          if negb (pred c) then NextRet c false st
          else
            NextRet c true
              (mkState (Source st) (Pos st + 1)
                 (if Ascii.eqb c newline then Line st + 1 else Line st))
      end
  else NextRet "000"%char false st.

(** [func (st *ParseState) trap(format string, args ...interface{}) ParseErr] *)
Definition trap (st : ParseState) (format : string) (args : list FmtArg)
  : ParseErr :=
  mkErr format args (Line st).

(** ** Control combinators *)

(** [func (p Parser) Bind(f func(interface{}) Parser) Parser] *)
Definition Bind (p : Parser) (f : Value -> Parser) : Parser :=
  fun fuel st =>
    match p fuel st with
    | Returns (Err err) st' => Returns (Err err) st'
    | Returns (Ok x) st' => f x fuel st'
    | Panics => Panics
    | OutOfFuel => OutOfFuel
    end.

(** [func (p1 Parser) Then(p2 Parser) Parser] *)
Definition Then (p1 p2 : Parser) : Parser :=
  fun fuel st =>
    match p1 fuel st with
    | Returns (Err err) st' => Returns (Err err) st'
    | Returns (Ok _) st' => p2 fuel st'
    | Panics => Panics
    | OutOfFuel => OutOfFuel
    end.

(** [func Return(x interface{}) Parser] *)
Definition Return (x : Value) : Parser :=
  fun _ st => Returns (Ok x) st.

(** [func Fail(msg string) Parser] *)
Definition Fail (msg : string) : Parser :=
  fun _ st => Returns (Err (trap st msg [])) st.

(** [func Either(p1, p2 Parser) Parser] *)
Definition Either (p1 p2 : Parser) : Parser :=
  fun fuel st =>
    let oldPos := Pos st in
    match p1 fuel st with
    | Returns (Ok x) st' => Returns (Ok x) st'
    | Returns (Err err) st' =>
        if Pos st' =? oldPos then p2 fuel st'
        else Returns (Err err) st'
    | Panics => Panics
    | OutOfFuel => OutOfFuel
    end.

(** [func (p Parser) Or(p2 Parser) Parser] *)
Definition Or (p p2 : Parser) : Parser := Either p p2.

(** [func Try(p Parser) Parser] *)
Definition Try (p : Parser) : Parser :=
  fun fuel st =>
    let oldPos := Pos st in
    match p fuel st with
    | Returns (Ok x) st' => Returns (Ok x) st'
    | Returns (Err err) st' => Returns (Err err) (setPos st' oldPos)
    | Panics => Panics
    | OutOfFuel => OutOfFuel
    end.

(** ** Primitive matchers *)

(** [func AnyChar(st *ParseState) (interface{}, error)] *)
Definition AnyChar : Parser :=
  fun _ st =>
    match next (fun _ => true) st with
    | NextRet c true st' => Returns (Ok (VByte c)) st'
    | NextRet _ false st' =>
        Returns (Err (trap st' "Unexpected end of file" [])) st'
    | NextPanic => Panics
    end.

(** [func Eof(st *ParseState) (interface{}, error)] *)
Definition Eof : Parser :=
  fun _ st =>
    match next (fun _ => true) st with
    | NextRet c true st' =>
        Returns
          (Err (trap st' "Expected end of file but got '%c'" [ArgByte c])) st'
    | NextRet _ false st' => Returns (Ok VNil) st'
    | NextPanic => Panics
    end.

(** [func Char(c byte) Parser] *)
Definition Char (c : ascii) : Parser :=
  fun _ st =>
    match next (fun b => Ascii.eqb b c) st with
    | NextRet x true st' => Returns (Ok (VByte x)) st'
    | NextRet _ false st' =>
        Returns (Err (trap st' "Expected '%c'" [ArgByte c])) st'
    | NextPanic => Panics
    end.

(** [func OneOf(set []byte) Parser] *)
Definition OneOf (set : string) : Parser :=
  fun _ st =>
    match next (fun c => IndexByte set c >=? 0) st with
    | NextRet x true st' => Returns (Ok (VByte x)) st'
    | NextRet x false st' =>
        Returns
          (Err (trap st' "Expected one of '%s' but got '%c'"
                  [ArgString set; ArgByte x])) st'
    | NextPanic => Panics
    end.

(** [func NoneOf(set []byte) Parser] *)
Definition NoneOf (set : string) : Parser :=
  fun _ st =>
    match next (fun c => IndexByte set c <? 0) st with
    | NextRet x true st' => Returns (Ok (VByte x)) st'
    | NextRet x false st' =>
        Returns (Err (trap st' "Unexpected '%c'" [ArgByte x])) st'
    | NextPanic => Panics
    end.

(** The loop of [String]: [for _, c := range []byte(s)], with [oldPos] and
    the whole literal [s] captured from outside the loop. *)
Fixpoint String_loop (s : string) (oldPos : Z) (cs : string)
    (st : ParseState) : Outcome :=
  match cs with
  | EmptyString => Returns (Ok (VString s)) st
  | String.String c cs' =>
      match next (fun b => Ascii.eqb b c) st with
      | NextRet _ false st' =>
          let st'' := setPos st' oldPos in
          Returns (Err (trap st'' "Expected '%s'" [ArgString s])) st''
      | NextRet _ true st' => String_loop s oldPos cs' st'
      | NextPanic => Panics
      end
  end.

(** [func String(s string) Parser] *)
Definition String (s : string) : Parser :=
  fun _ st =>
    let oldPos := Pos st in
    String_loop s oldPos s st.

(** ** Repetition and structural combinators *)

(** A closure whose body panics before it can return a parser (a failed
    type assertion), seen from [Bind], which calls the closure and runs
    its parser at once. *)
Definition panic : Parser := fun _ _ => Panics.

(** The conversion loop of [ToString]: [bs[i] = c.(byte)] for each element;
    [None] when an assertion [c.(byte)] fails. *)
Fixpoint bytes_of (xs : list Value) : option string :=
  match xs with
  | [] => Some EmptyString
  | VByte c :: rest =>
      match bytes_of rest with
      | Some bs => Some (String.String c bs)
      | None => None
      end
  | _ :: _ => None
  end.

(** [func (p Parser) ToString() Parser].  [x.([]interface{})] panics on a
    payload that is not a sequence. *)
Definition ToString (p : Parser) : Parser :=
  Bind p (fun x =>
    match x with
    | VList xs =>
        match bytes_of xs with
        | Some bs => Return (VString bs)
        | None => panic
        end
    | _ => panic
    end).

(** [func appendx(x, xs interface{}) interface{}]; [None] when the
    assertion [xs.([]interface{})] fails. *)
Definition appendx (x xs : Value) : option Value :=
  match xs with
  | VList l => Some (VList (x :: l))
  | _ => None
  end.

(** [Return(appendx(x, xs))] as the body of a closure. *)
Definition Return_appendx (x xs : Value) : Parser :=
  match appendx x xs with
  | Some v => Return v
  | None => panic
  end.

(** [func Many(p Parser) Parser], with the body of [Many1] in place of the
    call [Many1(p)].  Each call of [Many] takes one unit of fuel. *)
Fixpoint Many (p : Parser) (fuel : nat) (st : ParseState) {struct fuel}
  : Outcome :=
  match fuel with
  | O => OutOfFuel
  | S fuel' =>
      Or (Bind p (fun x => Bind (Many p) (fun xs => Return_appendx x xs)))
         (Return (VList []))
         fuel' st
  end.

(** [func Many1(p Parser) Parser] *)
Definition Many1 (p : Parser) : Parser :=
  Bind p (fun x => Bind (Many p) (fun xs => Return_appendx x xs)).

(** [func ManyTill(p, end Parser) Parser].  Each call of [ManyTill] takes
    one unit of fuel. *)
Fixpoint ManyTill (p end_ : Parser) (fuel : nat) (st : ParseState)
    {struct fuel} : Outcome :=
  match fuel with
  | O => OutOfFuel
  | S fuel' =>
      Either (Then (Try end_) (Return (VList [])))
             (Bind p (fun x =>
                Bind (ManyTill p end_) (fun xs => Return_appendx x xs)))
             fuel' st
  end.

(** [func Skip(p Parser) Parser] *)
Definition Skip (p : Parser) : Parser :=
  Or (Then p (Return VNil)) (Return VNil).

(** [func SkipMany(p Parser) Parser] *)
Definition SkipMany (p : Parser) : Parser :=
  Skip (Many p).

(** [func (p Parser) Between(start, end Parser) Parser] *)
Definition Between (p start end_ : Parser) : Parser :=
  let keep := fun x => Then end_ (Return x) in
  Then start (Bind p keep).

(** [func (p Parser) SepBy1(sep Parser) Parser] *)
Definition SepBy1 (p sep : Parser) : Parser :=
  Bind p (fun x =>
    Bind (Many (Then sep p)) (fun xs => Return_appendx x xs)).

(** [func (p Parser) SepBy(sep Parser) Parser] *)
Definition SepBy (p sep : Parser) : Parser :=
  Or (SepBy1 p sep) (Return (VList [])).

(** ** The derived character-class parsers *)

Definition Lowercase : Parser := OneOf "abcdefghijklmnopqrstuvwxyz".
Definition Uppercase : Parser := OneOf "ABCDEFGHIJKLMNOPQRSTUVWXYZ".
Definition Letter : Parser := Either Lowercase Uppercase.
Definition Letters : Parser := Many1 Letter.
Definition Digit : Parser := OneOf "0123456789".
Definition Digits : Parser := Many1 Digit.
Definition AlphaNum : Parser := Either Letter Digit.
Definition AlphaNums : Parser := Many1 AlphaNum.
Definition HexDigit : Parser := OneOf "0123456789acdefABCDEF".
Definition HexDigits : Parser := Many1 HexDigit.
Definition dquote : ascii := "034"%char.
Definition Punctuation : Parser :=
  OneOf ("!@#$%^&*()-=+[]{}\|;:'" ++ String.String dquote ",./<>?~`").
Definition tab : ascii := "009"%char.
Definition cr : ascii := "013"%char.
Definition Space : Parser := OneOf (String.String " " (String.String tab "")).
Definition Spaces : Parser := Skip Space.
Definition Newline : Parser :=
  OneOf (String.String cr (String.String newline "")).
Definition Eol : Parser := Either Eof Newline.

(** [func (p Parser) Parse(source string) (interface{}, error)]: only the
    returned pair leaves the call. *)
Inductive ParseOutcome : Type :=
| ParseReturns (r : Result)
| ParsePanics
| ParseOutOfFuel.

Definition Parse (p : Parser) (fuel : nat) (source : string) : ParseOutcome :=
  let st := mkState source 0 1 in
  match p fuel st with
  | Returns r _ => ParseReturns r
  | Panics => ParsePanics
  | OutOfFuel => ParseOutOfFuel
  end.

Definition cell : Parser :=
  ToString (Many (NoneOf (String.String "," (String.String newline "")))).
Definition line : Parser := SepBy cell (Char ",").
Definition csv : Parser := SepBy line (Char newline).
Definition csv_input : string :=
  "foo,bar" ++ String.String newline "hello,world,123".

(** ** Notions used to state the properties *)

(** Newline bytes among the first [n] bytes of [s]. *)
Fixpoint count_newlines (s : string) (n : nat) : Z :=
  match n, s with
  | S n', String.String c s' =>
      (if Ascii.eqb c newline then 1 else 0) + count_newlines s' n'
  | _, _ => 0
  end.

(** Newline bytes of the source before the cursor. *)
Definition newlines_before (st : ParseState) : Z :=
  count_newlines (Source st) (Z.to_nat (Pos st)).

(** The two-byte strings "\nx" and "\ny". *)
Definition nl_x : string := String.String newline "x".
Definition nl_y : string := String.String newline "y".

(** A parser that can fail after consuming: 'a' then 'b'. *)
Definition ab : Parser := Then (Char "a") (Char "b").

(** Bytes left to read. *)
Definition remaining (st : ParseState) : nat :=
  Z.to_nat (len (Source st) - Pos st).

(** The cursor invariant. *)
Definition in_bounds (st : ParseState) : Prop :=
  0 <= Pos st <= len (Source st).

(** What a run may do to the cursor: the source is the same, the position
    is within bounds, the line counter has not gone down. *)
Definition extends (st st' : ParseState) : Prop :=
  Source st' = Source st /\ in_bounds st' /\ Line st <= Line st'.

(** A parser keeps the cursor invariant when run with the given fuel. *)
Definition SafeAt (fuel : nat) (p : Parser) : Prop :=
  forall st r st',
    in_bounds st -> p fuel st = Returns r st' -> extends st st'.

(** The parsers that are built from the primitives and combinators of the
    library. *)
Inductive Built : Parser -> Prop :=
| Built_AnyChar : Built AnyChar
| Built_Eof : Built Eof
| Built_Char c : Built (Char c)
| Built_OneOf set : Built (OneOf set)
| Built_NoneOf set : Built (NoneOf set)
| Built_String s : Built (String s)
| Built_Return x : Built (Return x)
| Built_Fail msg : Built (Fail msg)
| Built_Bind p f : Built p -> (forall x, Built (f x)) -> Built (Bind p f)
| Built_Then p1 p2 : Built p1 -> Built p2 -> Built (Then p1 p2)
| Built_Either p1 p2 : Built p1 -> Built p2 -> Built (Either p1 p2)
| Built_Or p1 p2 : Built p1 -> Built p2 -> Built (Or p1 p2)
| Built_Try p : Built p -> Built (Try p)
| Built_ToString p : Built p -> Built (ToString p)
| Built_Many1 p : Built p -> Built (Many1 p)
| Built_Many p : Built p -> Built (Many p)
| Built_ManyTill p end_ : Built p -> Built end_ -> Built (ManyTill p end_)
| Built_Skip p : Built p -> Built (Skip p)
| Built_SkipMany p : Built p -> Built (SkipMany p)
| Built_Between p start end_ :
    Built p -> Built start -> Built end_ -> Built (Between p start end_)
| Built_SepBy1 p sep : Built p -> Built sep -> Built (SepBy1 p sep)
| Built_SepBy p sep : Built p -> Built sep -> Built (SepBy p sep).

(** A run of [p] that ends within fuel [f] ends the same way with [f']. *)
Definition MonoAt (f f' : nat) (p : Parser) : Prop :=
  forall st, p f st <> OutOfFuel -> p f' st = p f st.

(** A parser is monotone when more fuel never changes a finished run. *)
Definition Mono (p : Parser) : Prop :=
  forall f f', (f <= f')%nat -> MonoAt f f' p.

(** ** Notions used to state further properties *)

(** [s] without its first [n] bytes. *)
Fixpoint drop (n : nat) (s : string) : string :=
  match n, s with
  | O, _ => s
  | S n', String.String _ s' => drop n' s'
  | S _, EmptyString => EmptyString
  end.

(** The input still to be read: [st.Source[st.Pos:]]. *)
Definition rest (st : ParseState) : string :=
  drop (Z.to_nat (Pos st)) (Source st).

(** Newline bytes of [s]. *)
Fixpoint newlines_in (s : string) : Z :=
  match s with
  | EmptyString => 0
  | String.String c s' =>
      (if Ascii.eqb c newline then 1 else 0) + newlines_in s'
  end.

(** The cursor after the bytes [s] have been consumed from [st]. *)
Definition consumed (st : ParseState) (s : string) : ParseState :=
  mkState (Source st) (Pos st + len s) (Line st + newlines_in s).

(** The longest prefix of [s] whose bytes all satisfy [pred]. *)
Fixpoint span (pred : ascii -> bool) (s : string) : string :=
  match s with
  | EmptyString => EmptyString
  | String.String c s' =>
      if pred c then String.String c (span pred s') else EmptyString
  end.

(** The bytes of [s] as the payloads a byte matcher yields. *)
Fixpoint byte_values (s : string) : list Value :=
  match s with
  | EmptyString => []
  | String.String c s' => VByte c :: byte_values s'
  end.

(** [c] occurs in [set]. *)
Fixpoint occurs (c : ascii) (set : string) : bool :=
  match set with
  | EmptyString => false
  | String.String b set' => Ascii.eqb b c || occurs c set'
  end.

(** [p] is a matcher of one byte by [pred]: it hands back what [next pred]
    hands back, with some error when the flag is false. *)
Definition byte_matcher (pred : ascii -> bool) (p : Parser) : Prop :=
  forall fuel st,
    match next pred st with
    | NextRet x true st' => p fuel st = Returns (Ok (VByte x)) st'
    | NextRet _ false st' => exists e, p fuel st = Returns (Err e) st'
    | NextPanic => p fuel st = Panics
    end.

(** The bytes [Letter] and [AlphaNum] are made of. *)
Definition is_letter (c : ascii) : bool :=
  occurs c "abcdefghijklmnopqrstuvwxyz"
  || occurs c "ABCDEFGHIJKLMNOPQRSTUVWXYZ".

Definition is_alphanum (c : ascii) : bool :=
  is_letter c || occurs c "0123456789".

(** The longest prefix of the literal [s] that the input starts with. *)
Fixpoint common_prefix (s input : string) : string :=
  match s, input with
  | String.String a s', String.String b input' =>
      if Ascii.eqb b a then String.String a (common_prefix s' input')
      else EmptyString
  | _, _ => EmptyString
  end.

(** What every run of a library parser keeps, from any cursor: the
    position is not before where the run started, and a failure carries
    the line of the cursor it is returned with. *)
Definition sound_run (st : ParseState) (r : Result) (st' : ParseState)
  : Prop :=
  Pos st <= Pos st' /\
  match r with
  | Ok _ => True
  | Err e => ErrLine e = Line st'
  end.

Definition SoundAt (fuel : nat) (p : Parser) : Prop :=
  forall st r st', p fuel st = Returns r st' -> sound_run st r st'.

(** A parser does not panic from a cursor within bounds. *)
Definition NeverPanics (p : Parser) : Prop :=
  forall fuel st, in_bounds st -> p fuel st <> Panics.

(** The fields of the first record of [s]: a field is a longest run of
    bytes outside [set]; a byte [sep] after a field starts the next field,
    and any other byte of [set], or the end, ends the record. *)
Fixpoint fields (set : string) (sep : ascii) (s : string) : list string :=
  match s with
  | EmptyString => [EmptyString]
  | String.String c r =>
      if occurs c set then
        if Ascii.eqb c sep then EmptyString :: fields set sep r
        else [EmptyString]
      else
        match fields set sep r with
        | f :: fs => String.String c f :: fs
        | [] => [String.String c EmptyString]
        end
  end.

(** The fields after the first one, seen from the byte that follows it. *)
Definition more_fields (set : string) (sep : ascii) (s : string)
  : list string :=
  match s with
  | EmptyString => []
  | String.String c r => if Ascii.eqb c sep then fields set sep r else []
  end.

(** Each field with [sep] before it, in one string. *)
Fixpoint sep_before_each (sep : ascii) (fs : list string) : string :=
  match fs with
  | [] => EmptyString
  | f :: fs' => String.String sep (f ++ sep_before_each sep fs')
  end.

(** The parsers built without the backtracking of [Try], [String] and
    [ManyTill]. *)
Inductive Forward : Parser -> Prop :=
| Forward_AnyChar : Forward AnyChar
| Forward_Eof : Forward Eof
| Forward_Char c : Forward (Char c)
| Forward_OneOf set : Forward (OneOf set)
| Forward_NoneOf set : Forward (NoneOf set)
| Forward_Return x : Forward (Return x)
| Forward_Fail msg : Forward (Fail msg)
| Forward_Bind p f :
    Forward p -> (forall x, Forward (f x)) -> Forward (Bind p f)
| Forward_Then p1 p2 : Forward p1 -> Forward p2 -> Forward (Then p1 p2)
| Forward_Either p1 p2 : Forward p1 -> Forward p2 -> Forward (Either p1 p2)
| Forward_Or p1 p2 : Forward p1 -> Forward p2 -> Forward (Or p1 p2)
| Forward_ToString p : Forward p -> Forward (ToString p)
| Forward_Many1 p : Forward p -> Forward (Many1 p)
| Forward_Many p : Forward p -> Forward (Many p)
| Forward_Skip p : Forward p -> Forward (Skip p)
| Forward_SkipMany p : Forward p -> Forward (SkipMany p)
| Forward_Between p start end_ :
    Forward p -> Forward start -> Forward end_ ->
    Forward (Between p start end_)
| Forward_SepBy1 p sep : Forward p -> Forward sep -> Forward (SepBy1 p sep)
| Forward_SepBy p sep : Forward p -> Forward sep -> Forward (SepBy p sep).

(** The cursor moved on with the line counter in step: within bounds, on
    the same source, and the line counter raised by the newlines between
    the two positions. *)
Definition in_step (st st' : ParseState) : Prop :=
  extends st st' /\
  Line st' - newlines_before st' = Line st - newlines_before st.

Definition InStepAt (fuel : nat) (p : Parser) : Prop :=
  forall st r st',
    in_bounds st -> p fuel st = Returns r st' -> in_step st st'.

(** ** The line counter as a Go [int] *)

(** The range of [int], taken at 64 bits. *)
Definition min_int : Z := - 2 ^ 63.
Definition max_int : Z := 2 ^ 63 - 1.

(** An integer wrapped into the range of [int], as Go's arithmetic on
    [int] does. *)
Definition wrap_int (z : Z) : Z := (z - min_int) mod 2 ^ 64 + min_int.

(** The field [st.Line] as the [int] holds it.  The program changes
    [st.Line] by [st.Line++] only and never tests it, so the field is
    the count [Line] of the embedding wrapped into the range of [int];
    the two agree as long as the count stays in that range. *)
Definition Line_int (st : ParseState) : Z := wrap_int (Line st).

(** The cursor with its line counter as the [int] holds it. *)
Definition as_int (st : ParseState) : ParseState :=
  mkState (Source st) (Pos st) (Line_int st).

(** [next] with [st.Line++] wrapping as on an [int]. *)
Definition next_int (pred : ascii -> bool) (st : ParseState) : NextResult :=
  if Pos st <? len (Source st) then
    if Pos st <? 0 then NextPanic
    else
      match String.get (Z.to_nat (Pos st)) (Source st) with
      | None => NextPanic
      | Some c =>
          if negb (pred c) then NextRet c false st
          else
            NextRet c true
              (mkState (Source st) (Pos st + 1)
                 (if Ascii.eqb c newline then wrap_int (Line st + 1)
                  else Line st))
      end
  else NextRet "000"%char false st.

(** [AnyChar] over [next_int]. *)
Definition AnyChar_int : Parser :=
  fun _ st =>
    match next_int (fun _ => true) st with
    | NextRet c true st' => Returns (Ok (VByte c)) st'
    | NextRet _ false st' =>
        Returns (Err (trap st' "Unexpected end of file" [])) st'
    | NextPanic => Panics
    end.

(** The one-byte source "\n". *)
Definition nl : string := String.String newline "".

(** * Properties *)

(** ** The cursor primitive [next] *)

Lemma get_in_range (s : string) (n : nat) :
  (n < String.length s)%nat -> exists c, String.get n s = Some c.
Proof.
  revert n; induction s as [|a s IH]; intros n Hn; simpl in *.
  - lia.
  - destruct n as [|n]; [now exists a|].
    apply IH; lia.
Qed.

Lemma len_nonneg (s : string) : 0 <= len s.
Proof. unfold len; lia. Qed.

(** With a byte under the cursor, [next] reads it and consumes it exactly
    when the predicate holds. *)
Lemma next_in_range (pred : ascii -> bool) (st : ParseState) :
  0 <= Pos st < len (Source st) ->
  exists c,
    String.get (Z.to_nat (Pos st)) (Source st) = Some c /\
    next pred st =
      if pred c then
        NextRet c true
          (mkState (Source st) (Pos st + 1)
             (if Ascii.eqb c newline then Line st + 1 else Line st))
      else NextRet c false st.
Proof.
  intros [H0 H1].
  destruct (get_in_range (Source st) (Z.to_nat (Pos st))) as [c Hc].
  { unfold len in H1; lia. }
  exists c; split; [exact Hc|].
  unfold next.
  apply Z.ltb_lt in H1; rewrite H1.
  destruct (Pos st <? 0) eqn:Hneg; [apply Z.ltb_lt in Hneg; lia|].
  rewrite Hc; now destruct (pred c).
Qed.

(** At or past the end, [next] reports the zero byte and touches nothing. *)
Lemma next_at_end (pred : ascii -> bool) (st : ParseState) :
  len (Source st) <= Pos st ->
  next pred st = NextRet "000"%char false st.
Proof.
  intros H; unfold next.
  destruct (Pos st <? len (Source st)) eqn:E; [apply Z.ltb_lt in E; lia|].
  reflexivity.
Qed.

(** Every way [next] can return. *)
Lemma next_inv (pred : ascii -> bool) (st : ParseState) c ok st' :
  next pred st = NextRet c ok st' ->
  (ok = false /\ st' = st) \/
  (ok = true /\ 0 <= Pos st < len (Source st) /\
   String.get (Z.to_nat (Pos st)) (Source st) = Some c /\ pred c = true /\
   st' = mkState (Source st) (Pos st + 1)
           (if Ascii.eqb c newline then Line st + 1 else Line st)).
Proof.
  unfold next.
  destruct (Pos st <? len (Source st)) eqn:E1.
  - destruct (Pos st <? 0) eqn:E2; [discriminate|].
    destruct (String.get (Z.to_nat (Pos st)) (Source st)) as [b|] eqn:G;
      [|discriminate].
    destruct (pred b) eqn:Hp; simpl; intros H; inversion H; subst.
    + right. apply Z.ltb_lt in E1. apply Z.ltb_ge in E2. auto 10.
    + left; auto.
  - intros H; inversion H; auto.
Qed.

(** [next] panics only on a negative position. *)
Lemma next_panic (pred : ascii -> bool) (st : ParseState) :
  next pred st = NextPanic -> Pos st < 0.
Proof.
  unfold next.
  destruct (Pos st <? len (Source st)) eqn:E1; [|discriminate].
  destruct (Pos st <? 0) eqn:E2; [intros _; now apply Z.ltb_lt|].
  apply Z.ltb_lt in E1. apply Z.ltb_ge in E2.
  destruct (get_in_range (Source st) (Z.to_nat (Pos st))) as [c Hc].
  { unfold len in E1; lia. }
  rewrite Hc. now destruct (negb (pred c)).
Qed.

(** ** Choice *)

(** C1. [Either p1 p2]: when [p1] succeeds its result is returned; when
    [p1] fails leaving the position where it was, the outcome is that of
    [p2] run on the cursor [p1] left, at that same position; when [p1]
    fails with the position advanced, [p1]'s failure is returned whatever
    the second parser is, so the second parser is not run. *)
Theorem Either_choice_laws (p1 p2 : Parser) (fuel : nat) (st : ParseState) :
  (forall x st1,
      p1 fuel st = Returns (Ok x) st1 ->
      Either p1 p2 fuel st = Returns (Ok x) st1) /\
  (forall e st1,
      p1 fuel st = Returns (Err e) st1 ->
      Pos st1 = Pos st ->
      Either p1 p2 fuel st = p2 fuel st1) /\
  (forall e st1,
      p1 fuel st = Returns (Err e) st1 ->
      Pos st + 1 <= Pos st1 ->
      forall q, Either p1 q fuel st = Returns (Err e) st1).
Proof.
  split; [|split].
  - intros x st1 H. unfold Either. now rewrite H.
  - intros e st1 H Hpos. unfold Either. rewrite H.
    now rewrite Hpos, Z.eqb_refl.
  - intros e st1 H Hpos q. unfold Either. rewrite H.
    destruct (Pos st1 =? Pos st) eqn:E; [apply Z.eqb_eq in E; lia|].
    reflexivity.
Qed.

Lemma Either_choice_laws_witness :
  Either (Char "a") (Char "b") 0%nat (mkState "ab" 0 1)
    = Returns (Ok (VByte "a")) (mkState "ab" 1 1) /\
  Either (Char "a") (Char "b") 0%nat (mkState "ba" 0 1)
    = Char "b" 0%nat (mkState "ba" 0 1) /\
  Either (String "ab") (Char "b") 0%nat (mkState "ab" 0 1)
    = Returns (Ok (VString "ab")) (mkState "ab" 2 1) /\
  Either (Then (Char "a") (Char "b")) panic 0%nat (mkState "ac" 0 1)
    = Returns (Err (mkErr "Expected '%c'" [ArgByte "b"%char] 1))
        (mkState "ac" 1 1).
Proof.
  split; [|split; [|split]].
  - apply (proj1 (Either_choice_laws (Char "a") (Char "b") 0%nat
                    (mkState "ab" 0 1))).
    reflexivity.
  - apply (proj1 (proj2 (Either_choice_laws (Char "a") (Char "b") 0%nat
                           (mkState "ba" 0 1)))
             (mkErr "Expected '%c'" [ArgByte "a"%char] 1)).
    + reflexivity.
    + reflexivity.
  - apply (proj1 (Either_choice_laws (String "ab") (Char "b") 0%nat
                    (mkState "ab" 0 1))).
    reflexivity.
  - apply (proj2 (proj2 (Either_choice_laws (Then (Char "a") (Char "b"))
                           panic 0%nat (mkState "ac" 0 1)))).
    + reflexivity.
    + simpl; lia.
Defined.

(** ** End of input *)

(** With a byte under the cursor, [Eof] consumes it and fails naming it. *)
Lemma Eof_with_byte (fuel : nat) (st : ParseState) :
  0 <= Pos st < len (Source st) ->
  exists c st',
    String.get (Z.to_nat (Pos st)) (Source st) = Some c /\
    Eof fuel st =
      Returns
        (Err (mkErr "Expected end of file but got '%c'" [ArgByte c]
                (Line st'))) st' /\
    Source st' = Source st /\
    Pos st' = Pos st + 1 /\
    Line st' = (if Ascii.eqb c newline then Line st + 1 else Line st).
Proof.
  intros Hin.
  destruct (next_in_range (fun _ => true) st Hin) as [c [Hc Hn]].
  exists c.
  exists (mkState (Source st) (Pos st + 1)
            (if Ascii.eqb c newline then Line st + 1 else Line st)).
  split; [exact Hc|].
  unfold Eof. rewrite Hn. simpl. auto.
Qed.

(** C3. With a byte under the cursor, [Eof] fails, its error names that
    byte, and the byte has been consumed: the position is one further and
    the line counter is one higher when the byte is a newline.  With no
    byte left, [Eof] succeeds with [nil] and the cursor is as it was. *)
Theorem Eof_consumes_when_failing (fuel : nat) (st : ParseState) :
  (0 <= Pos st < len (Source st) ->
   exists c st',
     String.get (Z.to_nat (Pos st)) (Source st) = Some c /\
     Eof fuel st =
       Returns
         (Err (mkErr "Expected end of file but got '%c'" [ArgByte c]
                 (Line st'))) st' /\
     Source st' = Source st /\
     Pos st' = Pos st + 1 /\
     Line st' = (if Ascii.eqb c newline then Line st + 1 else Line st)) /\
  (len (Source st) <= Pos st ->
   Eof fuel st = Returns (Ok VNil) st).
Proof.
  split.
  - apply Eof_with_byte.
  - intros Hend. unfold Eof. now rewrite next_at_end.
Qed.

Lemma Eof_consumes_when_failing_witness :
  (exists c st',
     String.get (Z.to_nat 1) ("a" ++ String.String newline "b") = Some c /\
     Eof 0%nat (mkState ("a" ++ String.String newline "b") 1 1) =
       Returns
         (Err (mkErr "Expected end of file but got '%c'" [ArgByte c]
                 (Line st'))) st' /\
     Source st' = "a" ++ String.String newline "b" /\
     Pos st' = 1 + 1 /\
     Line st' = (if Ascii.eqb c newline then 1 + 1 else 1)) /\
  Eof 0%nat (mkState "ab" 2 1) = Returns (Ok VNil) (mkState "ab" 2 1).
Proof.
  split.
  - apply (proj1 (Eof_consumes_when_failing 0%nat
                    (mkState ("a" ++ String.String newline "b") 1 1))).
    vm_compute. split; [discriminate | reflexivity].
  - apply (proj2 (Eof_consumes_when_failing 0%nat (mkState "ab" 2 1))).
    vm_compute. discriminate.
Defined.

(** ** Full backtrack *)

(** C4. [Try p]: when [p] succeeds, [Try p] returns the same value with the
    same cursor; when [p] fails, [Try p] returns the same error with the
    position set back to the one before [p] started, and an [Either]
    around it goes on to its second parser from there. *)
Theorem Try_backtrack_law (p : Parser) (fuel : nat) (st : ParseState) :
  (forall x st1,
      p fuel st = Returns (Ok x) st1 ->
      Try p fuel st = Returns (Ok x) st1) /\
  (forall e st1,
      p fuel st = Returns (Err e) st1 ->
      exists st2,
        Try p fuel st = Returns (Err e) st2 /\
        Pos st2 = Pos st /\
        forall p2, Either (Try p) p2 fuel st = p2 fuel st2).
Proof.
  split.
  - intros x st1 H. unfold Try. now rewrite H.
  - intros e st1 H. exists (setPos st1 (Pos st)).
    split; [|split].
    + unfold Try. now rewrite H.
    + reflexivity.
    + intros p2. unfold Either, Try. rewrite H. simpl.
      now rewrite Z.eqb_refl.
Qed.

Lemma Try_backtrack_law_witness :
  Try (Then (Char "a") (Char "b")) 0%nat (mkState "ab" 0 1)
    = Returns (Ok (VByte "b")) (mkState "ab" 2 1) /\
  exists st2,
    Try (Then (Char "a") (Char "b")) 0%nat (mkState "ac" 0 1)
      = Returns (Err (mkErr "Expected '%c'" [ArgByte "b"%char] 1)) st2 /\
    Pos st2 = 0 /\
    forall p2,
      Either (Try (Then (Char "a") (Char "b"))) p2 0%nat (mkState "ac" 0 1)
        = p2 0%nat st2.
Proof.
  split.
  - apply (proj1 (Try_backtrack_law (Then (Char "a") (Char "b")) 0%nat
                    (mkState "ab" 0 1))).
    reflexivity.
  - apply (proj2 (Try_backtrack_law (Then (Char "a") (Char "b")) 0%nat
                    (mkState "ac" 0 1))
             (mkErr "Expected '%c'" [ArgByte "b"%char] 1)
             (mkState "ac" 1 1)).
    reflexivity.
Defined.

(** ** End of line *)

(** C5. With a byte under the cursor, whatever the byte, [Eol] fails with
    the error of [Eof] and leaves the position one byte further; the same
    holds with any parser in place of [Newline], so [Newline] is not run.
    [Eol] succeeds exactly when no byte is left. *)
Theorem Eol_fails_before_end (fuel : nat) (st : ParseState) :
  (0 <= Pos st < len (Source st) ->
   exists c st',
     String.get (Z.to_nat (Pos st)) (Source st) = Some c /\
     (forall p2,
        Either Eof p2 fuel st =
          Returns
            (Err (mkErr "Expected end of file but got '%c'" [ArgByte c]
                    (Line st'))) st') /\
     Eol fuel st =
       Returns
         (Err (mkErr "Expected end of file but got '%c'" [ArgByte c]
                 (Line st'))) st' /\
     Pos st' = Pos st + 1) /\
  (forall x st', Eol fuel st = Returns (Ok x) st' ->
                 len (Source st) <= Pos st /\ x = VNil /\ st' = st) /\
  (len (Source st) <= Pos st -> Eol fuel st = Returns (Ok VNil) st).
Proof.
  split; [|split].
  - intros Hin.
    destruct (Eof_with_byte fuel st Hin)
      as [c [st' [Hc [He [_ [Hp _]]]]]].
    exists c, st'. split; [exact Hc|].
    assert (HE : forall p2,
               Either Eof p2 fuel st =
                 Returns
                   (Err (mkErr "Expected end of file but got '%c'"
                           [ArgByte c] (Line st'))) st').
    { intros p2. unfold Either. rewrite He.
      destruct (Pos st' =? Pos st) eqn:E; [apply Z.eqb_eq in E; lia|].
      reflexivity. }
    split; [exact HE|]. split; [apply HE | exact Hp].
  - intros x st' H.
    destruct (Z_lt_le_dec (Pos st) (len (Source st))) as [Hlt|Hge].
    + exfalso. unfold Eol, Either, Eof in H.
      destruct (next (fun _ => true) st) as [c ok s1|] eqn:Hn;
        [|discriminate].
      destruct (next_inv _ _ _ _ _ Hn) as [[Hok Hs]|[Hok [_ [_ [_ Hs]]]]];
        subst ok.
      * unfold next in Hn. apply Z.ltb_lt in Hlt. rewrite Hlt in Hn.
        destruct (Pos st <? 0); [discriminate|].
        destruct (String.get (Z.to_nat (Pos st)) (Source st));
          simpl in Hn; discriminate.
      * subst s1. simpl in H.
        destruct (Pos st + 1 =? Pos st) eqn:E; [apply Z.eqb_eq in E; lia|].
        discriminate.
    + unfold Eol, Either, Eof in H. rewrite next_at_end in H by exact Hge.
      inversion H; subst; auto.
  - intros Hend. unfold Eol, Either, Eof. now rewrite next_at_end.
Qed.

Lemma Eol_fails_before_end_witness :
  (exists c st',
     String.get (Z.to_nat 0) (String.String newline "") = Some c /\
     (forall p2,
        Either Eof p2 0%nat (mkState (String.String newline "") 0 1) =
          Returns
            (Err (mkErr "Expected end of file but got '%c'" [ArgByte c]
                    (Line st'))) st') /\
     Eol 0%nat (mkState (String.String newline "") 0 1) =
       Returns
         (Err (mkErr "Expected end of file but got '%c'" [ArgByte c]
                 (Line st'))) st' /\
     Pos st' = 0 + 1) /\
  Eol 0%nat (mkState "ab" 2 1) = Returns (Ok VNil) (mkState "ab" 2 1).
Proof.
  split.
  - apply (proj1 (Eol_fails_before_end 0%nat
                    (mkState (String.String newline "") 0 1))).
    vm_compute. split; [discriminate | reflexivity].
  - apply (proj2 (proj2 (Eol_fails_before_end 0%nat (mkState "ab" 2 1)))).
    vm_compute. discriminate.
Defined.

(** ** Literals *)

(** A failure of the loop of [String] leaves the position at [oldPos]. *)
Lemma String_loop_failure (s : string) (oldPos : Z) (cs : string) :
  forall st e st',
    String_loop s oldPos cs st = Returns (Err e) st' ->
    Pos st' = oldPos /\ ErrLine e = Line st'.
Proof.
  induction cs as [|c cs IH]; intros st e st' H; simpl in H.
  - discriminate.
  - destruct (next (fun b => Ascii.eqb b c) st) as [x [|] s1|] eqn:Hn.
    + eapply IH; eassumption.
    + inversion H; subst. simpl. auto.
    + discriminate.
Qed.

(** The loop over [s1 ++ s2] goes on with [s2] from where [s1] ended. *)
Lemma String_loop_app (s sa : string) (oldPos olda : Z) (s1 s2 : string) :
  forall st v st1,
    String_loop sa olda s1 st = Returns (Ok v) st1 ->
    String_loop s oldPos (s1 ++ s2) st = String_loop s oldPos s2 st1.
Proof.
  induction s1 as [|c s1 IH]; intros st v st1 H; simpl in *.
  - now inversion H.
  - destruct (next (fun b => Ascii.eqb b c) st) as [x [|] s'|] eqn:Hn;
      try discriminate.
    eapply IH; eassumption.
Qed.

(** C7. [String "abc"] on the input "abcd" succeeds with "abc" and the
    cursor at offset 3; on "abx" it fails with the cursor back at offset 0;
    and for every literal and cursor, a failure of [String] leaves the
    position where matching started. *)
Theorem String_literal_matching :
  (forall fuel,
      String "abc" fuel (mkState "abcd" 0 1)
        = Returns (Ok (VString "abc")) (mkState "abcd" 3 1)) /\
  (forall fuel,
      String "abc" fuel (mkState "abx" 0 1)
        = Returns (Err (mkErr "Expected '%s'" [ArgString "abc"] 1))
            (mkState "abx" 0 1)) /\
  (forall s fuel st e st',
      String s fuel st = Returns (Err e) st' -> Pos st' = Pos st).
Proof.
  split; [|split].
  - intros fuel. reflexivity.
  - intros fuel. reflexivity.
  - intros s fuel st e st' H. unfold String in H.
    now apply String_loop_failure in H.
Qed.

Lemma String_literal_matching_witness :
  String "lx" 0%nat (mkState "hello" 2 1)
    = Returns (Err (mkErr "Expected '%s'" [ArgString "lx"] 1))
        (mkState "hello" 2 1) /\
  Pos (mkState "hello" 2 1) = 2.
Proof.
  split; [reflexivity|].
  apply (proj2 (proj2 String_literal_matching) "lx" 0%nat
           (mkState "hello" 2 1)
           (mkErr "Expected '%s'" [ArgString "lx"] 1)
           (mkState "hello" 2 1)).
  reflexivity.
Defined.

(** ** Backtracking and the line counter *)

(** C10. When [Try] or [String] backtracks, only the position is set back:
    the line counter stays as the failed attempt left it.  So after a
    backtrack over a newline the line counter is larger than one plus the
    number of newlines before the position, and the newline is counted a
    second time when it is consumed again. *)
Theorem backtrack_keeps_Line :
  (forall p fuel st e st1,
      p fuel st = Returns (Err e) st1 ->
      Try p fuel st =
        Returns (Err e) (mkState (Source st1) (Pos st) (Line st1))) /\
  (forall s1 c s2 fuel st v st1 x,
      String s1 fuel st = Returns (Ok v) st1 ->
      next (fun b => Ascii.eqb b c) st1 = NextRet x false st1 ->
      exists e,
        String (s1 ++ String.String c s2) fuel st =
          Returns (Err e) (mkState (Source st1) (Pos st) (Line st1))) /\
  (forall fuel,
      exists e st',
        Try (Then (Char newline) (Char "x")) fuel (mkState nl_y 0 1)
          = Returns (Err e) st' /\
        Pos st' = 0 /\ Line st' = 2 /\
        1 + newlines_before st' < Line st') /\
  (forall fuel,
      exists e st',
        String nl_x fuel (mkState nl_y 0 1) = Returns (Err e) st' /\
        Pos st' = 0 /\ Line st' = 2 /\
        1 + newlines_before st' < Line st') /\
  (forall fuel,
      Either (String nl_x) (String nl_y) fuel (mkState nl_y 0 1)
        = Returns (Ok (VString nl_y)) (mkState nl_y 2 3)) /\
  (forall fuel,
      Either (Try (Then (Char newline) (Char "x"))) (String nl_y) fuel
        (mkState nl_y 0 1)
        = Returns (Ok (VString nl_y)) (mkState nl_y 2 3)).
Proof.
  split; [|split; [|split; [|split; [|split]]]].
  - intros p fuel st e st1 H. unfold Try. now rewrite H.
  - intros s1 c s2 fuel st v st1 x Hs Hn. unfold String in *.
    rewrite (String_loop_app _ _ _ _ _ _ _ _ _ Hs).
    simpl. rewrite Hn. eexists. reflexivity.
  - intros fuel. do 2 eexists. split; [reflexivity|].
    repeat split; vm_compute; reflexivity.
  - intros fuel. do 2 eexists. split; [reflexivity|].
    repeat split; vm_compute; reflexivity.
  - intros fuel. reflexivity.
  - intros fuel. reflexivity.
Qed.

Lemma backtrack_keeps_Line_witness :
  Try (Then (Char newline) (Char "x")) 0%nat (mkState nl_y 0 1)
    = Returns (Err (mkErr "Expected '%c'" [ArgByte "x"%char] 2))
        (mkState nl_y 0 2) /\
  exists e,
    String (String.String newline "" ++ String.String "x" "") 0%nat
      (mkState nl_y 0 1)
    = Returns (Err e) (mkState nl_y 0 2).
Proof.
  split.
  - apply (proj1 backtrack_keeps_Line
             (Then (Char newline) (Char "x")) 0%nat (mkState nl_y 0 1)
             (mkErr "Expected '%c'" [ArgByte "x"%char] 2)
             (mkState nl_y 1 2)).
    reflexivity.
  - apply (proj1 (proj2 backtrack_keeps_Line)
             (String.String newline "") "x"%char ""%string 0%nat
             (mkState nl_y 0 1)
             (VString (String.String newline ""))
             (mkState nl_y 1 2) "y"%char).
    + reflexivity.
    + reflexivity.
Defined.

(** ** Repetition *)

(** [Many] and [Many1] fail when a later application of the parser fails
    after consuming: on "ac", [Many ab] fails; on "abac" the first
    application of [ab] succeeds and [Many1 ab] fails all the same. *)
Lemma Many_fails_after_consumption :
  Many ab 3%nat (mkState "ac" 0 1)
    = Returns (Err (mkErr "Expected '%c'" [ArgByte "b"%char] 1))
        (mkState "ac" 1 1) /\
  ab 3%nat (mkState "abac" 0 1)
    = Returns (Ok (VByte "b")) (mkState "abac" 2 1) /\
  Many1 ab 3%nat (mkState "abac" 0 1)
    = Returns (Err (mkErr "Expected '%c'" [ArgByte "b"%char] 1))
        (mkState "abac" 3 1).
Proof. repeat split. Qed.

Lemma Many_unfold (p : Parser) (fuel : nat) (st : ParseState) :
  Many p (S fuel) st = Either (Many1 p) (Return (VList [])) fuel st.
Proof. reflexivity. Qed.

Lemma Return_appendx_returns (x xs : Value) (fuel : nat) (st : ParseState)
      r st' :
  Return_appendx x xs fuel st = Returns r st' ->
  exists l, xs = VList l /\ r = Ok (VList (x :: l)) /\ st' = st.
Proof.
  unfold Return_appendx, appendx, Return, panic.
  destruct xs; try discriminate.
  intros H; inversion H; eauto.
Qed.

Section Repetition.

Variable p : Parser.

(** Every way [Many1 p] can fail. *)
Lemma Many1_failure fuel st e st' :
  Many1 p fuel st = Returns (Err e) st' ->
  p fuel st = Returns (Err e) st' \/
  exists x st1,
    p fuel st = Returns (Ok x) st1 /\
    Many p fuel st1 = Returns (Err e) st'.
Proof.
  unfold Many1, Bind.
  destruct (p fuel st) as [[x|e0] st1| |]; try discriminate.
  - destruct (Many p fuel st1) as [[xs|e1] st2| |] eqn:HM;
      try discriminate.
    + intros H. apply Return_appendx_returns in H.
      destruct H as [l [_ [H _]]]. discriminate.
    + intros H. inversion H; subst. right. eauto.
  - intros H. inversion H; subst. now left.
Qed.

(** [Many p] fails only with the position moved. *)
Lemma Many_failure_moved fuel st e st' :
  Many p fuel st = Returns (Err e) st' -> Pos st' <> Pos st.
Proof.
  destruct fuel as [|fuel]; [discriminate|].
  rewrite Many_unfold. unfold Either.
  destruct (Many1 p fuel st) as [[x|e0] st1| |]; try discriminate.
  destruct (Pos st1 =? Pos st) eqn:E.
  - discriminate.
  - intros H. inversion H; subst. now apply Z.eqb_neq.
Qed.

Hypothesis p_fails_in_place :
  forall fuel st e st', p fuel st = Returns (Err e) st' -> Pos st' = Pos st.

Lemma Many_never_fails fuel :
  forall st e st', Many p fuel st <> Returns (Err e) st'.
Proof.
  induction fuel as [|fuel IH]; intros st e st' H; [discriminate|].
  rewrite Many_unfold in H. unfold Either in H.
  destruct (Many1 p fuel st) as [[x|e0] st1| |] eqn:H1; try discriminate.
  destruct (Many1_failure _ _ _ _ H1) as [Hp|[x [st2 [_ HM]]]].
  - apply p_fails_in_place in Hp. rewrite Hp, Z.eqb_refl in H.
    discriminate.
  - exact (IH _ _ _ HM).
Qed.

Lemma Many1_fails_iff fuel st :
  (exists e st', Many1 p fuel st = Returns (Err e) st') <->
  (exists e st', p fuel st = Returns (Err e) st').
Proof.
  split; intros [e [st' H]].
  - destruct (Many1_failure _ _ _ _ H) as [Hp|[x [st2 [_ HM]]]].
    + eauto.
    + exfalso. exact (Many_never_fails _ _ _ _ HM).
  - exists e, st'. unfold Many1, Bind. now rewrite H.
Qed.

Hypothesis p_returns :
  forall fuel st, in_bounds st -> exists r st', p fuel st = Returns r st'.

Hypothesis p_consumes :
  forall fuel st x st',
    in_bounds st -> p fuel st = Returns (Ok x) st' ->
    in_bounds st' /\ (remaining st' < remaining st)%nat.

Lemma Many_succeeds fuel :
  forall st,
    in_bounds st -> (remaining st < fuel)%nat ->
    exists xs st', Many p fuel st = Returns (Ok (VList xs)) st'.
Proof.
  induction fuel as [|fuel IH]; intros st Hin Hfuel; [lia|].
  rewrite Many_unfold. unfold Either, Many1, Bind.
  destruct (p_returns fuel st Hin) as [[x|e] [st1 Hp]]; rewrite Hp.
  - destruct (p_consumes _ _ _ _ Hin Hp) as [Hin1 Hlt].
    destruct (IH st1 Hin1) as [xs [st2 HM]]; [lia|].
    rewrite HM. simpl. eauto.
  - rewrite (p_fails_in_place _ _ _ _ Hp), Z.eqb_refl.
    unfold Return. eauto.
Qed.

End Repetition.

(** With enough fuel [Many p] succeeds with one result, for a parser
    that returns given enough fuel, also one that holds repetitions
    itself. *)
Lemma Many_returns (p : Parser) :
  (forall fuel st e st', p fuel st = Returns (Err e) st' -> Pos st' = Pos st) ->
  (forall st,
      in_bounds st ->
      exists fuel0 r st',
      forall fuel, (fuel0 <= fuel)%nat -> p fuel st = Returns r st') ->
  (forall fuel st x st',
      in_bounds st -> p fuel st = Returns (Ok x) st' ->
      in_bounds st' /\ (remaining st' < remaining st)%nat) ->
  forall n st,
    (remaining st < n)%nat -> in_bounds st ->
    exists fuel0 xs st',
    forall fuel, (fuel0 <= fuel)%nat ->
    Many p fuel st = Returns (Ok (VList xs)) st'.
Proof.
  intros Hf Hr Hc n.
  induction n as [|n IH]; intros st Hlt Hb; [lia|].
  destruct (Hr st Hb) as [f1 [r [s1 Hp]]].
  destruct r as [x|e].
  - destruct (Hc f1 st x s1 Hb (Hp f1 (Nat.le_refl f1))) as [Hb1 Hlt1].
    destruct (IH s1 ltac:(lia) Hb1) as [f2 [xs [s2 H2]]].
    exists (S (Nat.max f1 f2)), (x :: xs), s2. intros fuel Hle.
    destruct fuel as [|f]; [lia|].
    rewrite Many_unfold. unfold Either, Many1, Bind.
    rewrite (Hp f) by lia. rewrite (H2 f) by lia. reflexivity.
  - exists (S f1), [], s1. intros fuel Hle.
    destruct fuel as [|f]; [lia|].
    rewrite Many_unfold. unfold Either, Many1, Bind.
    rewrite (Hp f) by lia.
    rewrite (Hf _ _ _ _ (Hp f1 (Nat.le_refl f1))), Z.eqb_refl.
    reflexivity.
Qed.

(** C2 (amended). For a parser [p] whose failures leave the position in
    place, [Many p] never returns a failure and [Many1 p] fails exactly
    when the first application of [p] fails.  When moreover [p] returns
    from every cursor within bounds and each of its successes consumes,
    [Many p] succeeds with a sequence: given more fuel than there are
    bytes left when [p] returns whatever the fuel, and given enough fuel
    when [p] itself returns given enough fuel, as a parser that holds
    repetitions does. *)
Theorem Many_totality (p : Parser) :
  (forall fuel st e st', p fuel st = Returns (Err e) st' -> Pos st' = Pos st) ->
  (forall fuel st e st', Many p fuel st <> Returns (Err e) st') /\
  (forall fuel st,
      (exists e st', Many1 p fuel st = Returns (Err e) st') <->
      (exists e st', p fuel st = Returns (Err e) st')) /\
  ((forall fuel st, in_bounds st -> exists r st', p fuel st = Returns r st') ->
   (forall fuel st x st',
       in_bounds st -> p fuel st = Returns (Ok x) st' ->
       in_bounds st' /\ (remaining st' < remaining st)%nat) ->
   forall fuel st,
     in_bounds st -> (remaining st < fuel)%nat ->
     exists xs st', Many p fuel st = Returns (Ok (VList xs)) st') /\
  ((forall st,
       in_bounds st ->
       exists fuel0 r st',
       forall fuel, (fuel0 <= fuel)%nat -> p fuel st = Returns r st') ->
   (forall fuel st x st',
       in_bounds st -> p fuel st = Returns (Ok x) st' ->
       in_bounds st' /\ (remaining st' < remaining st)%nat) ->
   forall st,
     in_bounds st ->
     exists fuel0 xs st',
     forall fuel, (fuel0 <= fuel)%nat ->
     Many p fuel st = Returns (Ok (VList xs)) st').
Proof.
  intros Hf. split; [|split; [|split]].
  - intros fuel. now apply Many_never_fails.
  - now apply Many1_fails_iff.
  - intros Hr Hc fuel. now apply Many_succeeds.
  - intros Hr Hc st Hb.
    apply (Many_returns p Hf Hr Hc (S (remaining st)) st); [lia | exact Hb].
Qed.

(** ** The cursor invariant *)

Lemma extends_refl st : in_bounds st -> extends st st.
Proof. unfold extends; intuition lia. Qed.

Lemma extends_trans st1 st2 st3 :
  extends st1 st2 -> extends st2 st3 -> extends st1 st3.
Proof.
  unfold extends. intros [S1 [B1 L1]] [S2 [B2 L2]].
  repeat split; try apply B2; [congruence | lia].
Qed.

Lemma extends_in_bounds st st' : extends st st' -> in_bounds st'.
Proof. now intros [_ [H _]]. Qed.

(** Setting the position back to one saved from an earlier cursor. *)
Lemma extends_setPos st0 st st' :
  in_bounds st0 -> extends st0 st -> extends st st' ->
  extends st (setPos st' (Pos st0)).
Proof.
  unfold extends, in_bounds, setPos. simpl.
  intros B0 [S1 [B1 L1]] [S2 [B2 L2]].
  repeat split; try lia; auto.
  rewrite S2, S1. lia.
Qed.

Lemma next_extends pred st c ok st' :
  in_bounds st -> next pred st = NextRet c ok st' -> extends st st'.
Proof.
  intros Hb H.
  destruct (next_inv _ _ _ _ _ H) as [[_ Hs]|[_ [Hr [_ [_ Hs]]]]]; subst st'.
  - now apply extends_refl.
  - unfold extends, in_bounds. simpl.
    repeat split; try lia.
    destruct (Ascii.eqb c newline); lia.
Qed.

Section SafeCombinators.

Variable fuel : nat.

Lemma Safe_panic : SafeAt fuel panic.
Proof. intros st r st' _ H. discriminate. Qed.

Lemma Safe_Return x : SafeAt fuel (Return x).
Proof.
  intros st r st' Hb H. inversion H; subst. now apply extends_refl.
Qed.

Lemma Safe_Fail msg : SafeAt fuel (Fail msg).
Proof.
  intros st r st' Hb H. inversion H; subst. now apply extends_refl.
Qed.

Lemma Safe_AnyChar : SafeAt fuel AnyChar.
Proof.
  intros st r st' Hb H. unfold AnyChar in H.
  destruct (next (fun _ => true) st) as [c [|] s1|] eqn:Hn;
    inversion H; subst; eapply next_extends; eassumption.
Qed.

Lemma Safe_Eof : SafeAt fuel Eof.
Proof.
  intros st r st' Hb H. unfold Eof in H.
  destruct (next (fun _ => true) st) as [c [|] s1|] eqn:Hn;
    inversion H; subst; eapply next_extends; eassumption.
Qed.

Lemma Safe_Char c : SafeAt fuel (Char c).
Proof.
  intros st r st' Hb H. unfold Char in H.
  destruct (next (fun b => Ascii.eqb b c) st) as [x [|] s1|] eqn:Hn;
    inversion H; subst; eapply next_extends; eassumption.
Qed.

Lemma Safe_OneOf set : SafeAt fuel (OneOf set).
Proof.
  intros st r st' Hb H. unfold OneOf in H.
  destruct (next (fun c => IndexByte set c >=? 0) st)
    as [x [|] s1|] eqn:Hn;
    inversion H; subst; eapply next_extends; eassumption.
Qed.

Lemma Safe_NoneOf set : SafeAt fuel (NoneOf set).
Proof.
  intros st r st' Hb H. unfold NoneOf in H.
  destruct (next (fun c => IndexByte set c <? 0) st)
    as [x [|] s1|] eqn:Hn;
    inversion H; subst; eapply next_extends; eassumption.
Qed.

Lemma String_loop_extends s st0 cs :
  forall st r st',
    in_bounds st0 -> extends st0 st ->
    String_loop s (Pos st0) cs st = Returns r st' ->
    extends st0 st'.
Proof.
  induction cs as [|c cs IH]; intros st r st' B0 E H; simpl in H.
  - now inversion H; subst.
  - destruct (next (fun b => Ascii.eqb b c) st) as [x [|] s1|] eqn:Hn;
      try discriminate.
    + apply (IH s1 r st' B0); [|exact H].
      eapply extends_trans; [exact E|].
      eapply next_extends; [|exact Hn]. eapply extends_in_bounds, E.
    + inversion H; subst.
      apply next_inv in Hn. destruct Hn as [[_ Hs]|[Hf _]];
        [subst s1|discriminate].
      destruct E as [S1 [B1 L1]]. unfold extends, in_bounds, setPos.
      simpl. rewrite S1. unfold in_bounds in B0. repeat split; lia.
Qed.

Lemma Safe_String s : SafeAt fuel (String s).
Proof.
  intros st r st' Hb H. unfold String in H.
  eapply String_loop_extends; try eassumption.
  now apply extends_refl.
Qed.

Lemma Safe_Bind p f :
  SafeAt fuel p -> (forall x, SafeAt fuel (f x)) -> SafeAt fuel (Bind p f).
Proof.
  intros Hp Hf st r st' Hb H. unfold Bind in H.
  destruct (p fuel st) as [[x|e] s1| |] eqn:E; try discriminate.
  - eapply extends_trans; [eapply Hp; eassumption|].
    eapply Hf; [|exact H]. eapply extends_in_bounds, Hp; eassumption.
  - inversion H; subst. eapply Hp; eassumption.
Qed.

Lemma Safe_Then p1 p2 :
  SafeAt fuel p1 -> SafeAt fuel p2 -> SafeAt fuel (Then p1 p2).
Proof.
  intros H1 H2 st r st' Hb H. unfold Then in H.
  destruct (p1 fuel st) as [[x|e] s1| |] eqn:E; try discriminate.
  - eapply extends_trans; [eapply H1; eassumption|].
    eapply H2; [|exact H]. eapply extends_in_bounds, H1; eassumption.
  - inversion H; subst. eapply H1; eassumption.
Qed.

Lemma Safe_Either p1 p2 :
  SafeAt fuel p1 -> SafeAt fuel p2 -> SafeAt fuel (Either p1 p2).
Proof.
  intros H1 H2 st r st' Hb H. unfold Either in H.
  destruct (p1 fuel st) as [[x|e] s1| |] eqn:E; try discriminate.
  - inversion H; subst. eapply H1; eassumption.
  - destruct (Pos s1 =? Pos st).
    + eapply extends_trans; [eapply H1; eassumption|].
      eapply H2; [|exact H]. eapply extends_in_bounds, H1; eassumption.
    + inversion H; subst. eapply H1; eassumption.
Qed.

Lemma Safe_Try p : SafeAt fuel p -> SafeAt fuel (Try p).
Proof.
  intros Hp st r st' Hb H. unfold Try in H.
  destruct (p fuel st) as [[x|e] s1| |] eqn:E; try discriminate.
  - inversion H; subst. eapply Hp; eassumption.
  - inversion H; subst.
    apply (extends_setPos st st s1 Hb (extends_refl st Hb)).
    eapply Hp; eassumption.
Qed.

Lemma Safe_Return_appendx x xs : SafeAt fuel (Return_appendx x xs).
Proof.
  unfold Return_appendx. destruct (appendx x xs).
  - apply Safe_Return.
  - apply Safe_panic.
Qed.

Lemma Safe_ToString p : SafeAt fuel p -> SafeAt fuel (ToString p).
Proof.
  intros Hp. unfold ToString. apply Safe_Bind; [exact Hp|].
  intros [| |s|xs]; try apply Safe_panic.
  destruct (bytes_of xs); [apply Safe_Return | apply Safe_panic].
Qed.

Lemma Safe_Many1 p :
  SafeAt fuel p -> SafeAt fuel (Many p) -> SafeAt fuel (Many1 p).
Proof.
  intros Hp HM. unfold Many1. apply Safe_Bind; [exact Hp|].
  intros x. apply Safe_Bind; [exact HM|].
  intros xs. apply Safe_Return_appendx.
Qed.

Lemma Safe_Skip p : SafeAt fuel p -> SafeAt fuel (Skip p).
Proof.
  intros Hp. unfold Skip, Or.
  apply Safe_Either; [apply Safe_Then|]; auto using Safe_Return.
Qed.

Lemma Safe_Between p start end_ :
  SafeAt fuel p -> SafeAt fuel start -> SafeAt fuel end_ ->
  SafeAt fuel (Between p start end_).
Proof.
  intros Hp Hs He. unfold Between.
  apply Safe_Then; [exact Hs|]. apply Safe_Bind; [exact Hp|].
  intros x. apply Safe_Then; [exact He | apply Safe_Return].
Qed.

End SafeCombinators.

Lemma Safe_Many p :
  (forall fuel, SafeAt fuel p) -> forall fuel, SafeAt fuel (Many p).
Proof.
  intros Hp fuel. induction fuel as [|fuel IH].
  - intros st r st' _ H. discriminate.
  - intros st r st' Hb H. rewrite Many_unfold in H.
    revert st r st' Hb H.
    apply Safe_Either; [|apply Safe_Return].
    apply Safe_Many1; auto.
Qed.

Lemma Safe_ManyTill p end_ :
  (forall fuel, SafeAt fuel p) -> (forall fuel, SafeAt fuel end_) ->
  forall fuel, SafeAt fuel (ManyTill p end_).
Proof.
  intros Hp He fuel. induction fuel as [|fuel IH].
  - intros st r st' _ H. discriminate.
  - intros st r st' Hb H. simpl in H.
    revert st r st' Hb H.
    apply Safe_Either.
    + apply Safe_Then; [apply Safe_Try, He | apply Safe_Return].
    + apply Safe_Bind; [apply Hp|]. intros x.
      apply Safe_Bind; [exact IH|]. intros xs. apply Safe_Return_appendx.
Qed.

Lemma Safe_SepBy1 p sep :
  (forall fuel, SafeAt fuel p) -> (forall fuel, SafeAt fuel sep) ->
  forall fuel, SafeAt fuel (SepBy1 p sep).
Proof.
  intros Hp Hs fuel. unfold SepBy1.
  apply Safe_Bind; [apply Hp|]. intros x.
  apply Safe_Bind; [|intros xs; apply Safe_Return_appendx].
  apply Safe_Many. intros f. now apply Safe_Then.
Qed.

Lemma Built_Safe p : Built p -> forall fuel, SafeAt fuel p.
Proof.
  induction 1; intros fuel.
  - apply Safe_AnyChar.
  - apply Safe_Eof.
  - apply Safe_Char.
  - apply Safe_OneOf.
  - apply Safe_NoneOf.
  - apply Safe_String.
  - apply Safe_Return.
  - apply Safe_Fail.
  - apply Safe_Bind; auto.
  - apply Safe_Then; auto.
  - apply Safe_Either; auto.
  - apply Safe_Either; auto.
  - apply Safe_Try; auto.
  - apply Safe_ToString; auto.
  - apply Safe_Many1; auto. now apply Safe_Many.
  - now apply Safe_Many.
  - now apply Safe_ManyTill.
  - apply Safe_Skip; auto.
  - apply Safe_Skip. now apply Safe_Many.
  - apply Safe_Between; auto.
  - now apply Safe_SepBy1.
  - apply Safe_Either; [now apply Safe_SepBy1 | apply Safe_Return].
Qed.

Lemma wrap_int_in_range (z : Z) :
  min_int <= z <= max_int -> wrap_int z = z.
Proof.
  unfold wrap_int, min_int, max_int. intros H.
  rewrite Z.mod_small; lia.
Qed.

Lemma wrap_int_succ (z : Z) : wrap_int (wrap_int z + 1) = wrap_int (z + 1).
Proof.
  unfold wrap_int.
  replace ((z - min_int) mod 2 ^ 64 + min_int + 1 - min_int)
    with ((z - min_int) mod 2 ^ 64 + 1) by lia.
  replace (z + 1 - min_int) with ((z - min_int) + 1) by lia.
  now rewrite Z.add_mod_idemp_l by lia.
Qed.

(** The count of the embedding, wrapped, is the line counter of the step
    that wraps: [next_int] on the wrapped cursor gives the wrapped cursor
    of [next]. *)
Lemma next_int_wraps_next (pred : ascii -> bool) (st : ParseState) :
  next_int pred (as_int st) =
    match next pred st with
    | NextRet c ok st' => NextRet c ok (as_int st')
    | NextPanic => NextPanic
    end.
Proof.
  unfold next_int, next, as_int, Line_int. simpl.
  destruct (Pos st <? len (Source st)); [|reflexivity].
  destruct (Pos st <? 0); [reflexivity|].
  destruct (String.get (Z.to_nat (Pos st)) (Source st)) as [c|];
    [|reflexivity].
  destruct (negb (pred c)); [reflexivity|]. simpl.
  destruct (Ascii.eqb c newline); [|reflexivity].
  now rewrite wrap_int_succ.
Qed.

(** At [Line = MaxInt64] the line counter goes down: [AnyChar] on a
    newline leaves it at [MinInt64].  The count of the embedding goes to
    [2^63] there, which the [int] holds as [MinInt64]. *)
Lemma Line_wraps_at_max_int :
  0 <= Pos (mkState nl 0 max_int) <= len (Source (mkState nl 0 max_int)) /\
  AnyChar_int 0%nat (mkState nl 0 max_int)
    = Returns (Ok (VByte newline)) (mkState nl 1 min_int) /\
  Line (mkState nl 1 min_int) < Line (mkState nl 0 max_int) /\
  AnyChar 0%nat (mkState nl 0 max_int)
    = Returns (Ok (VByte newline)) (mkState nl 1 (max_int + 1)) /\
  Line_int (mkState nl 1 (max_int + 1)) = min_int /\
  Line_int (mkState nl 1 (max_int + 1)) < Line_int (mkState nl 0 max_int).
Proof.
  split; [vm_compute; split; discriminate|].
  repeat split.
Qed.

(** C8 (amended). A parser built from the primitives and combinators of
    the library, run from a cursor with [0 <= Pos <= len Source], returns
    (with a success or a failure) a cursor over the same source with
    [0 <= Pos <= len Source]; and the line counter, as the [int] holds
    it, is not below the one the run started from, as long as the count
    of the run stays within the range of [int]. *)
Theorem Built_keeps_cursor_invariant (p : Parser) (fuel : nat)
    (st st' : ParseState) (r : Result) :
  Built p ->
  0 <= Pos st <= len (Source st) ->
  p fuel st = Returns r st' ->
  Source st' = Source st /\
  0 <= Pos st' <= len (Source st') /\
  (min_int <= Line st -> Line st' <= max_int ->
   Line_int st <= Line_int st' /\
   Line_int st = Line st /\ Line_int st' = Line st').
Proof.
  intros HB Hb H.
  destruct (Built_Safe p HB fuel st r st' Hb H) as [HS [HP HL]].
  split; [exact HS|]. split; [exact HP|].
  intros Hmin Hmax. unfold Line_int.
  rewrite !wrap_int_in_range by lia. auto.
Qed.

Lemma Built_keeps_cursor_invariant_witness :
  Source (mkState nl_y 1 3) = Source (mkState nl_y 0 1) /\
  0 <= Pos (mkState nl_y 1 3) <= len (Source (mkState nl_y 1 3)) /\
  Line_int (mkState nl_y 0 1) <= Line_int (mkState nl_y 1 3).
Proof.
  destruct (Built_keeps_cursor_invariant
              (Either (Try (Then (Char newline) (Char "x"))) AnyChar)
              0%nat (mkState nl_y 0 1) (mkState nl_y 1 3)
              (Ok (VByte newline))) as [H1 [H2 H3]].
  - apply Built_Either; [apply Built_Try, Built_Then|];
      auto using Built_Char, Built_AnyChar.
  - vm_compute. split; discriminate.
  - reflexivity.
  - split; [exact H1|]. split; [exact H2|].
    apply H3; vm_compute; discriminate.
Defined.

(** ** Single-byte matchers *)

(** [OneOf] fails without touching the cursor. *)
Lemma OneOf_failure set fuel st e st' :
  OneOf set fuel st = Returns (Err e) st' -> st' = st.
Proof.
  unfold OneOf.
  destruct (next (fun c => IndexByte set c >=? 0) st) as [x [|] s1|] eqn:Hn;
    try discriminate.
  intros H; inversion H; subst.
  destruct (next_inv _ _ _ _ _ Hn) as [[_ Hs]|[Hf _]];
    [exact Hs | discriminate].
Qed.

(** [OneOf] succeeds only by consuming one byte that is there. *)
Lemma OneOf_success set fuel st x st' :
  OneOf set fuel st = Returns (Ok x) st' ->
  0 <= Pos st < len (Source st) /\
  Source st' = Source st /\ Pos st' = Pos st + 1.
Proof.
  unfold OneOf.
  destruct (next (fun c => IndexByte set c >=? 0) st) as [c [|] s1|] eqn:Hn;
    try discriminate.
  intros H; inversion H; subst.
  destruct (next_inv _ _ _ _ _ Hn) as [[Hf _]|[_ [Hr [_ [_ Hs]]]]];
    [discriminate|].
  subst st'. simpl. auto.
Qed.

(** Within bounds [OneOf] returns. *)
Lemma OneOf_returns set fuel st :
  in_bounds st -> exists r st', OneOf set fuel st = Returns r st'.
Proof.
  intros Hb. unfold OneOf.
  destruct (next (fun c => IndexByte set c >=? 0) st) as [c [|] s1|] eqn:Hn;
    eauto.
  apply next_panic in Hn. unfold in_bounds in Hb. lia.
Qed.

(** ** Skipping *)

(** [Skip] applies its parser once, where [Many1] goes on: on "aa",
    [Skip (Char "a")] stops after one byte and [Many1 (Char "a")] reads
    both; [Spaces] reads one of the two leading spaces of "  x". *)
Lemma Skip_applies_once :
  Skip (Char "a") 3%nat (mkState "aa" 0 1)
    = Returns (Ok VNil) (mkState "aa" 1 1) /\
  Many1 (Char "a") 3%nat (mkState "aa" 0 1)
    = Returns (Ok (VList [VByte "a"; VByte "a"])) (mkState "aa" 2 1) /\
  Spaces 3%nat (mkState "  x" 0 1)
    = Returns (Ok VNil) (mkState "  x" 1 1).
Proof. repeat split. Qed.

(** C6 (amended). [Skip p] applies [p] once and drops its value: it
    succeeds with [nil] when [p] succeeds, and also when [p] fails with
    the position in place; when [p] fails with the position moved,
    [Skip p] fails with that error.  [SkipMany p] is [Many p] with the
    collected sequence replaced by [nil].  [Spaces] succeeds with [nil]
    from every cursor within bounds. *)
Theorem Skip_once_SkipMany_repeats (p : Parser) (fuel : nat)
    (st : ParseState) :
  (forall x st1,
      p fuel st = Returns (Ok x) st1 ->
      Skip p fuel st = Returns (Ok VNil) st1) /\
  (forall e st1,
      p fuel st = Returns (Err e) st1 -> Pos st1 = Pos st ->
      Skip p fuel st = Returns (Ok VNil) st1) /\
  (forall e st1,
      p fuel st = Returns (Err e) st1 -> Pos st1 <> Pos st ->
      Skip p fuel st = Returns (Err e) st1) /\
  SkipMany p fuel st =
    match Many p fuel st with
    | Returns (Ok _) st1 => Returns (Ok VNil) st1
    | Returns (Err e) st1 => Returns (Err e) st1
    | Panics => Panics
    | OutOfFuel => OutOfFuel
    end /\
  (0 <= Pos st <= len (Source st) ->
   exists st1, Spaces fuel st = Returns (Ok VNil) st1).
Proof.
  split; [|split; [|split; [|split]]].
  - intros x st1 H. unfold Skip, Or, Either, Then. now rewrite H.
  - intros e st1 H Hp. unfold Skip, Or, Either, Then. rewrite H.
    now rewrite Hp, Z.eqb_refl.
  - intros e st1 H Hp. unfold Skip, Or, Either, Then. rewrite H.
    apply Z.eqb_neq in Hp. now rewrite Hp.
  - unfold SkipMany, Skip, Or, Either, Then.
    destruct (Many p fuel st) as [[x|e] st1| |] eqn:HM; try reflexivity.
    apply Many_failure_moved in HM. apply Z.eqb_neq in HM.
    now rewrite HM.
  - intros Hb. unfold Spaces, Skip, Or, Either, Then.
    destruct (OneOf_returns (String.String " " (String.String tab ""))
                fuel st Hb) as [[x|e] [st1 H]];
      unfold Space; rewrite H.
    + unfold Return. eauto.
    + apply OneOf_failure in H. subst st1. rewrite Z.eqb_refl.
      unfold Return. eauto.
Qed.

Lemma Skip_once_SkipMany_repeats_witness :
  Skip ab 0%nat (mkState "abab" 0 1) = Returns (Ok VNil) (mkState "abab" 2 1) /\
  Skip ab 0%nat (mkState "xb" 0 1) = Returns (Ok VNil) (mkState "xb" 0 1) /\
  Skip ab 0%nat (mkState "ax" 0 1)
    = Returns (Err (mkErr "Expected '%c'" [ArgByte "b"%char] 1))
        (mkState "ax" 1 1) /\
  exists st1, Spaces 0%nat (mkState "  x" 0 1) = Returns (Ok VNil) st1.
Proof.
  split; [|split; [|split]].
  - apply (proj1 (Skip_once_SkipMany_repeats ab 0%nat (mkState "abab" 0 1))
             (VByte "b")).
    reflexivity.
  - apply (proj1 (proj2 (Skip_once_SkipMany_repeats ab 0%nat
                           (mkState "xb" 0 1)))
             (mkErr "Expected '%c'" [ArgByte "a"%char] 1)).
    + reflexivity.
    + reflexivity.
  - apply (proj1 (proj2 (proj2 (Skip_once_SkipMany_repeats ab 0%nat
                                  (mkState "ax" 0 1))))).
    + reflexivity.
    + simpl. lia.
  - apply (proj2 (proj2 (proj2 (proj2
             (Skip_once_SkipMany_repeats ab 0%nat (mkState "  x" 0 1)))))).
    vm_compute. split; discriminate.
Defined.

(** ** More fuel changes nothing once a run has ended *)

Section MonoCombinators.

Variables f f' : nat.

Lemma Mono_const (o : ParseState -> Outcome) : MonoAt f f' (fun _ => o).
Proof. intros st _. reflexivity. Qed.

Lemma Mono_Bind p g :
  MonoAt f f' p -> (forall x, MonoAt f f' (g x)) -> MonoAt f f' (Bind p g).
Proof.
  intros Hp Hg st H. unfold Bind in *.
  destruct (p f st) as [[x|e] s1| |] eqn:E.
  - rewrite Hp, E by congruence. now apply Hg.
  - now rewrite Hp, E by congruence.
  - now rewrite Hp, E by congruence.
  - congruence.
Qed.

Lemma Mono_Then p1 p2 :
  MonoAt f f' p1 -> MonoAt f f' p2 -> MonoAt f f' (Then p1 p2).
Proof.
  intros H1 H2 st H. unfold Then in *.
  destruct (p1 f st) as [[x|e] s1| |] eqn:E.
  - rewrite H1, E by congruence. now apply H2.
  - now rewrite H1, E by congruence.
  - now rewrite H1, E by congruence.
  - congruence.
Qed.

Lemma Mono_Either p1 p2 :
  MonoAt f f' p1 -> MonoAt f f' p2 -> MonoAt f f' (Either p1 p2).
Proof.
  intros H1 H2 st H. unfold Either in *.
  destruct (p1 f st) as [[x|e] s1| |] eqn:E.
  - now rewrite H1, E by congruence.
  - rewrite H1, E by congruence.
    destruct (Pos s1 =? Pos st); [now apply H2 | reflexivity].
  - now rewrite H1, E by congruence.
  - congruence.
Qed.

Lemma Mono_Try p : MonoAt f f' p -> MonoAt f f' (Try p).
Proof.
  intros Hp st H. unfold Try in *.
  destruct (p f st) as [[x|e] s1| |] eqn:E;
    try (now rewrite Hp, E by congruence); congruence.
Qed.

Lemma Mono_Return_appendx x xs : MonoAt f f' (Return_appendx x xs).
Proof.
  unfold Return_appendx. destruct (appendx x xs); apply Mono_const.
Qed.

Lemma Mono_ToString p : MonoAt f f' p -> MonoAt f f' (ToString p).
Proof.
  intros Hp. unfold ToString. apply Mono_Bind; [exact Hp|].
  intros [| |s|xs]; try apply Mono_const.
  destruct (bytes_of xs); apply Mono_const.
Qed.

Lemma Mono_Many1 p :
  MonoAt f f' p -> MonoAt f f' (Many p) -> MonoAt f f' (Many1 p).
Proof.
  intros Hp HM. unfold Many1. apply Mono_Bind; [exact Hp|].
  intros x. apply Mono_Bind; [exact HM|].
  intros xs. apply Mono_Return_appendx.
Qed.

Lemma Mono_Skip p : MonoAt f f' p -> MonoAt f f' (Skip p).
Proof.
  intros Hp. unfold Skip, Or.
  apply Mono_Either; [apply Mono_Then|]; auto using Mono_const.
  all: apply Mono_const.
Qed.

Lemma Mono_Between p start end_ :
  MonoAt f f' p -> MonoAt f f' start -> MonoAt f f' end_ ->
  MonoAt f f' (Between p start end_).
Proof.
  intros Hp Hs He. unfold Between.
  apply Mono_Then; [exact Hs|]. apply Mono_Bind; [exact Hp|].
  intros x. apply Mono_Then; [exact He | apply Mono_const].
Qed.

End MonoCombinators.

Lemma Mono_Many p : Mono p -> Mono (Many p).
Proof.
  intros Hp f. induction f as [|f IH]; intros f' Hle st H.
  - now contradiction H.
  - destruct f' as [|f']; [lia|].
    rewrite !Many_unfold in *. revert st H.
    assert (Hle' : (f <= f')%nat) by lia.
    apply (Mono_Either f f'); [|apply (Mono_const f f')].
    apply Mono_Many1; auto.
Qed.

Lemma Mono_ManyTill p end_ : Mono p -> Mono end_ -> Mono (ManyTill p end_).
Proof.
  intros Hp He f. induction f as [|f IH]; intros f' Hle st H.
  - now contradiction H.
  - destruct f' as [|f']; [lia|].
    simpl in *. revert st H.
    assert (Hle' : (f <= f')%nat) by lia.
    apply (Mono_Either f f').
    + apply Mono_Then; [apply Mono_Try; auto | apply (Mono_const f f')].
    + apply Mono_Bind; [auto|]. intros x.
      apply Mono_Bind; [auto|]. intros xs. apply Mono_Return_appendx.
Qed.

Lemma Mono_SepBy1 p sep : Mono p -> Mono sep -> Mono (SepBy1 p sep).
Proof.
  intros Hp Hs f f' Hle. unfold SepBy1.
  apply Mono_Bind; [auto|]. intros x.
  apply Mono_Bind; [|intros xs; apply Mono_Return_appendx].
  apply Mono_Many; [|exact Hle].
  intros g g' Hg. apply Mono_Then; auto.
Qed.

Lemma Built_Mono p : Built p -> Mono p.
Proof.
  induction 1; intros n n' Hle;
    try (apply (Mono_const n n')).
  - apply Mono_Bind; auto. intros x. now apply H1.
  - apply Mono_Then; auto.
  - apply Mono_Either; auto.
  - apply Mono_Either; auto.
  - apply Mono_Try; auto.
  - apply Mono_ToString; auto.
  - apply Mono_Many1; auto. now apply Mono_Many.
  - now apply Mono_Many.
  - now apply Mono_ManyTill.
  - apply Mono_Skip; auto.
  - apply Mono_Skip. now apply Mono_Many.
  - apply Mono_Between; auto.
  - now apply Mono_SepBy1.
  - apply Mono_Either; [now apply Mono_SepBy1 | apply (Mono_const n n')].
Qed.

(** ** The comma-separated example of the README *)

Lemma Built_csv : Built csv.
Proof.
  unfold csv, line, cell.
  repeat first
    [ apply Built_SepBy | apply Built_ToString | apply Built_Many
    | apply Built_NoneOf | apply Built_Char ].
Qed.

(** C9. [Many(NoneOf(",\n")).ToString()] separated by [Char(',')]
    separated by [Char('\n')], parsing "foo,bar\nhello,world,123",
    succeeds with [[["foo","bar"],["hello","world","123"]]], whenever the
    fuel is at least 8. *)
Theorem csv_example (fuel : nat) :
  (8 <= fuel)%nat ->
  Parse csv fuel csv_input =
    ParseReturns
      (Ok (VList [VList [VString "foo"; VString "bar"];
                  VList [VString "hello"; VString "world";
                         VString "123"]])).
Proof.
  intros Hle. unfold Parse.
  rewrite (Built_Mono csv Built_csv 8%nat fuel Hle).
  - reflexivity.
  - vm_compute. discriminate.
Qed.

Lemma csv_example_witness :
  Parse csv 100 csv_input =
    ParseReturns
      (Ok (VList [VList [VString "foo"; VString "bar"];
                  VList [VString "hello"; VString "world";
                         VString "123"]])).
Proof.
  apply (csv_example 100). lia.
Defined.

(** * Further properties *)

(** ** The input left to read *)

Lemma drop_nil (n : nat) : drop n EmptyString = EmptyString.
Proof. now destruct n. Qed.

Lemma drop_get (s : string) :
  forall n,
    String.get n s =
      match drop n s with
      | EmptyString => None
      | String.String c _ => Some c
      end.
Proof.
  induction s as [|a s IH]; intros [|n]; simpl; auto.
Qed.

Lemma drop_succ (s : string) :
  forall n c r, drop n s = String.String c r -> drop (S n) s = r.
Proof.
  induction s as [|a s IH]; intros [|n] c r H; simpl in *;
    try discriminate.
  - now inversion H.
  - now apply IH in H.
Qed.

Lemma drop_length (s : string) :
  forall n, String.length (drop n s) = (String.length s - n)%nat.
Proof.
  induction s as [|a s IH]; intros [|n]; simpl; auto.
Qed.

Lemma rest_length (st : ParseState) :
  in_bounds st -> len (rest st) = len (Source st) - Pos st.
Proof.
  unfold in_bounds, rest, len. intros Hb. rewrite drop_length. lia.
Qed.

Lemma remaining_rest (st : ParseState) :
  in_bounds st -> remaining st = String.length (rest st).
Proof.
  unfold in_bounds, remaining, rest, len. intros Hb.
  rewrite drop_length. lia.
Qed.

(** At the end of the input [next] reads nothing. *)
Lemma next_rest_nil pred st :
  in_bounds st -> rest st = EmptyString ->
  next pred st = NextRet "000"%char false st.
Proof.
  intros Hb Hr. apply next_at_end.
  pose proof (rest_length st Hb) as Hl. rewrite Hr in Hl.
  unfold len in Hl at 1. simpl in Hl. lia.
Qed.

(** With [c] the first byte left, [next] tests [c], and consuming it
    leaves the bytes after it. *)
Lemma next_rest_cons pred st c r :
  in_bounds st -> rest st = String.String c r ->
  next pred st =
    (if pred c then NextRet c true (consumed st (String.String c ""))
     else NextRet c false st) /\
  in_bounds (consumed st (String.String c "")) /\
  rest (consumed st (String.String c "")) = r.
Proof.
  intros Hb Hr.
  pose proof (rest_length st Hb) as Hl. rewrite Hr in Hl.
  unfold len in Hl at 1. simpl String.length in Hl.
  assert (Hin : 0 <= Pos st < len (Source st)) by (unfold in_bounds in Hb; lia).
  destruct (next_in_range pred st Hin) as [c' [Hc Hn]].
  rewrite drop_get in Hc. unfold rest in Hr. rewrite Hr in Hc.
  inversion Hc; subst c'.
  split; [|split].
  - rewrite Hn. unfold consumed, len. simpl.
    destruct (pred c); [|reflexivity].
    destruct (Ascii.eqb c newline); do 2 f_equal; f_equal; lia.
  - unfold in_bounds, consumed, len in *. simpl. lia.
  - unfold rest, consumed, len. simpl.
    replace (Z.to_nat (Pos st + 1)) with (S (Z.to_nat (Pos st))) by lia.
    eapply drop_succ; eassumption.
Qed.

Lemma consumed_nil (st : ParseState) : consumed st EmptyString = st.
Proof.
  destruct st as [s p l]. unfold consumed, len. simpl.
  f_equal; lia.
Qed.

Lemma consumed_cons (st : ParseState) (c : ascii) (s : string) :
  consumed (consumed st (String.String c "")) s
  = consumed st (String.String c s).
Proof.
  unfold consumed, len. simpl.
  f_equal; destruct (Ascii.eqb c newline); lia.
Qed.

Lemma setPos_same (st : ParseState) : setPos st (Pos st) = st.
Proof. now destruct st. Qed.

(** ** Single-byte matchers, generally *)

Lemma AnyChar_matcher : byte_matcher (fun _ => true) AnyChar.
Proof.
  intros fuel st. unfold AnyChar.
  destruct (next (fun _ => true) st) as [x [|] s1|]; eauto.
Qed.

Lemma Char_matcher c : byte_matcher (fun b => Ascii.eqb b c) (Char c).
Proof.
  intros fuel st. unfold Char.
  destruct (next (fun b => Ascii.eqb b c) st) as [x [|] s1|]; eauto.
Qed.

Lemma OneOf_matcher set :
  byte_matcher (fun c => IndexByte set c >=? 0) (OneOf set).
Proof.
  intros fuel st. unfold OneOf.
  destruct (next (fun c => IndexByte set c >=? 0) st) as [x [|] s1|]; eauto.
Qed.

Lemma NoneOf_matcher set :
  byte_matcher (fun c => IndexByte set c <? 0) (NoneOf set).
Proof.
  intros fuel st. unfold NoneOf.
  destruct (next (fun c => IndexByte set c <? 0) st) as [x [|] s1|]; eauto.
Qed.

(** A byte matcher, by what is left to read. *)
Lemma byte_matcher_rest pred p fuel st :
  byte_matcher pred p -> in_bounds st ->
  match rest st with
  | EmptyString => exists e, p fuel st = Returns (Err e) st
  | String.String c r =>
      (if pred c
       then p fuel st = Returns (Ok (VByte c)) (consumed st (String.String c ""))
       else exists e, p fuel st = Returns (Err e) st) /\
      in_bounds (consumed st (String.String c "")) /\
      rest (consumed st (String.String c "")) = r
  end.
Proof.
  intros Hm Hb. specialize (Hm fuel st).
  destruct (rest st) as [|c r] eqn:Hr.
  - rewrite (next_rest_nil pred st Hb Hr) in Hm. exact Hm.
  - destruct (next_rest_cons pred st c r Hb Hr) as [Hn [Hb' Hr']].
    rewrite Hn in Hm. split; [|now split].
    destruct (pred c); exact Hm.
Qed.

(** [bytes.IndexByte] is non-negative exactly on the bytes of the set. *)
Lemma IndexByte_occurs set c :
  IndexByte set c >= 0 <-> occurs c set = true.
Proof.
  induction set as [|b set IH]; simpl.
  - split; [lia | discriminate].
  - destruct (Ascii.eqb b c); simpl; [split; [reflexivity | lia]|].
    destruct (IndexByte set c <? 0) eqn:E.
    + apply Z.ltb_lt in E. split; [lia|]. intros H. apply IH in H. lia.
    + apply Z.ltb_ge in E. split; [intros _; apply IH; lia | lia].
Qed.

Lemma IndexByte_geb set c : (IndexByte set c >=? 0) = occurs c set.
Proof.
  destruct (occurs c set) eqn:E.
  - apply IndexByte_occurs in E. apply Z.geb_le. lia.
  - destruct (IndexByte set c >=? 0) eqn:G; [|reflexivity].
    apply Z.geb_le in G. assert (H : IndexByte set c >= 0) by lia.
    apply IndexByte_occurs in H. congruence.
Qed.

Lemma IndexByte_ltb set c : (IndexByte set c <? 0) = negb (occurs c set).
Proof.
  rewrite <- IndexByte_geb.
  destruct (IndexByte set c <? 0) eqn:E.
  - apply Z.ltb_lt in E. symmetry. apply negb_true_iff.
    destruct (IndexByte set c >=? 0) eqn:G; [apply Z.geb_le in G; lia|].
    reflexivity.
  - apply Z.ltb_ge in E. symmetry. apply negb_false_iff.
    apply Z.geb_le. lia.
Qed.

(** X1. The four single-byte primitives, by the byte under the cursor.
    With a byte [b] there: [AnyChar] consumes it; [Char c] consumes it
    when it is [c]; [OneOf set] consumes it when it occurs in [set] and
    [NoneOf set] when it does not, so exactly one of the two does.  With
    no byte left all four fail, and [OneOf] and [NoneOf] name the zero
    byte as the byte they got.  Every failure leaves the cursor as it
    was and carries its line. *)
Theorem byte_primitives (c : ascii) (set : string) (fuel : nat)
    (st : ParseState) :
  in_bounds st ->
  match rest st with
  | EmptyString =>
      AnyChar fuel st
        = Returns (Err (mkErr "Unexpected end of file" [] (Line st))) st /\
      Char c fuel st
        = Returns (Err (mkErr "Expected '%c'" [ArgByte c] (Line st))) st /\
      OneOf set fuel st
        = Returns
            (Err (mkErr "Expected one of '%s' but got '%c'"
                    [ArgString set; ArgByte "000"%char] (Line st))) st /\
      NoneOf set fuel st
        = Returns
            (Err (mkErr "Unexpected '%c'" [ArgByte "000"%char] (Line st))) st
  | String.String b _ =>
      AnyChar fuel st
        = Returns (Ok (VByte b)) (consumed st (String.String b "")) /\
      Char c fuel st
        = (if Ascii.eqb b c
           then Returns (Ok (VByte b)) (consumed st (String.String b ""))
           else Returns
                  (Err (mkErr "Expected '%c'" [ArgByte c] (Line st))) st) /\
      OneOf set fuel st
        = (if occurs b set
           then Returns (Ok (VByte b)) (consumed st (String.String b ""))
           else Returns
                  (Err (mkErr "Expected one of '%s' but got '%c'"
                          [ArgString set; ArgByte b] (Line st))) st) /\
      NoneOf set fuel st
        = (if occurs b set
           then Returns (Err (mkErr "Unexpected '%c'" [ArgByte b] (Line st)))
                  st
           else Returns (Ok (VByte b)) (consumed st (String.String b "")))
  end.
Proof.
  intros Hb. unfold AnyChar, Char, OneOf, NoneOf.
  destruct (rest st) as [|b r] eqn:Hr.
  - now rewrite !(next_rest_nil _ st Hb Hr).
  - destruct (next_rest_cons (fun _ => true) st b r Hb Hr) as [H1 _].
    destruct (next_rest_cons (fun x => Ascii.eqb x c) st b r Hb Hr)
      as [H2 _].
    destruct (next_rest_cons (fun x => IndexByte set x >=? 0) st b r Hb Hr)
      as [H3 _].
    destruct (next_rest_cons (fun x => IndexByte set x <? 0) st b r Hb Hr)
      as [H4 _].
    rewrite H1, H2, H3, H4, IndexByte_geb, IndexByte_ltb.
    destruct (Ascii.eqb b c), (occurs b set); simpl; auto.
Qed.

Lemma byte_primitives_witness :
  AnyChar 0%nat (mkState "xbz" 1 1)
    = Returns (Ok (VByte "b")) (mkState "xbz" 2 1) /\
  Char "z" 0%nat (mkState "xbz" 1 1)
    = Returns (Err (mkErr "Expected '%c'" [ArgByte "z"%char] 1))
        (mkState "xbz" 1 1) /\
  OneOf "abc" 0%nat (mkState "xbz" 1 1)
    = Returns (Ok (VByte "b")) (mkState "xbz" 2 1) /\
  NoneOf "abc" 0%nat (mkState "xbz" 1 1)
    = Returns (Err (mkErr "Unexpected '%c'" [ArgByte "b"%char] 1))
        (mkState "xbz" 1 1).
Proof.
  apply (byte_primitives "z" "abc" 0%nat (mkState "xbz" 1 1)).
  vm_compute. split; discriminate.
Defined.

(** ** Repetition of a single-byte matcher *)

Lemma span_length_le pred s :
  (String.length (span pred s) <= String.length s)%nat.
Proof.
  induction s as [|c s IH]; simpl; [lia|].
  destruct (pred c); simpl; lia.
Qed.

Section ByteRuns.

Variable pred : ascii -> bool.
Variable p : Parser.
Hypothesis p_matches : byte_matcher pred p.

Lemma Many_byte_run fuel :
  forall st,
    in_bounds st ->
    (String.length (span pred (rest st)) < fuel)%nat ->
    Many p fuel st =
      Returns (Ok (VList (byte_values (span pred (rest st)))))
        (consumed st (span pred (rest st))).
Proof.
  induction fuel as [|fuel IH]; intros st Hb Hf; [lia|].
  rewrite Many_unfold. unfold Either, Many1, Bind.
  pose proof (byte_matcher_rest pred p fuel st p_matches Hb) as Hp.
  destruct (rest st) as [|c r] eqn:Hr.
  - destruct Hp as [e Hp]. rewrite Hp, Z.eqb_refl. simpl.
    now rewrite consumed_nil.
  - destruct Hp as [Hp [Hb1 Hr1]]. simpl in *.
    destruct (pred c).
    + rewrite Hp. rewrite IH; [|exact Hb1|rewrite Hr1; simpl in Hf; lia].
      rewrite Hr1. simpl. now rewrite consumed_cons.
    + destruct Hp as [e Hp]. rewrite Hp, Z.eqb_refl. simpl.
      now rewrite consumed_nil.
Qed.

Lemma Many1_byte_run fuel st :
  in_bounds st ->
  match span pred (rest st) with
  | EmptyString => exists e, Many1 p fuel st = Returns (Err e) st
  | String.String c run =>
      (String.length run < fuel)%nat ->
      Many1 p fuel st =
        Returns (Ok (VList (byte_values (String.String c run))))
          (consumed st (String.String c run))
  end.
Proof.
  intros Hb. unfold Many1, Bind.
  pose proof (byte_matcher_rest pred p fuel st p_matches Hb) as Hp.
  destruct (rest st) as [|c r] eqn:Hr; simpl.
  - destruct Hp as [e Hp]. rewrite Hp. eauto.
  - destruct Hp as [Hp [Hb1 Hr1]].
    destruct (pred c).
    + intros Hf. rewrite Hp.
      rewrite Many_byte_run; [|exact Hb1|now rewrite Hr1].
      rewrite Hr1. simpl. now rewrite consumed_cons.
    + destruct Hp as [e Hp]. rewrite Hp. eauto.
Qed.

End ByteRuns.

(** X2. [Many] of a single-byte matcher ([AnyChar], [Char c], [OneOf set],
    [NoneOf set]) reads the longest run of bytes the matcher accepts: it
    succeeds with exactly those bytes, in order, with the position moved
    past them and the line counter raised by the newlines among them.
    It needs more fuel than the run is long. *)
Theorem Many_reads_longest_run (pred : ascii -> bool) (p : Parser)
    (fuel : nat) (st : ParseState) :
  byte_matcher pred p ->
  in_bounds st ->
  (String.length (span pred (rest st)) < fuel)%nat ->
  Many p fuel st =
    Returns (Ok (VList (byte_values (span pred (rest st)))))
      (mkState (Source st)
         (Pos st + len (span pred (rest st)))
         (Line st + newlines_in (span pred (rest st)))).
Proof.
  intros Hm Hb Hf. now apply Many_byte_run.
Qed.

Lemma Many_reads_longest_run_witness :
  Many (Char "a") 3 (mkState "xaab" 1 1) =
    Returns (Ok (VList [VByte "a"; VByte "a"])) (mkState "xaab" 3 1).
Proof.
  apply (Many_reads_longest_run (fun b => Ascii.eqb b "a") (Char "a")
           3%nat (mkState "xaab" 1 1)).
  - apply Char_matcher.
  - vm_compute. split; discriminate.
  - vm_compute. lia.
Defined.

(** X3. [Many1] of a single-byte matcher fails, leaving the cursor as it
    was, when the first byte is not accepted or no byte is left;
    otherwise it succeeds with the longest run of accepted bytes, which
    is not empty. *)
Theorem Many1_reads_longest_run (pred : ascii -> bool) (p : Parser)
    (fuel : nat) (st : ParseState) :
  byte_matcher pred p ->
  in_bounds st ->
  (String.length (span pred (rest st)) <= fuel)%nat ->
  (span pred (rest st) = EmptyString ->
   exists e, Many1 p fuel st = Returns (Err e) st) /\
  (span pred (rest st) <> EmptyString ->
   Many1 p fuel st =
     Returns (Ok (VList (byte_values (span pred (rest st)))))
       (mkState (Source st)
          (Pos st + len (span pred (rest st)))
          (Line st + newlines_in (span pred (rest st))))).
Proof.
  intros Hm Hb Hf.
  pose proof (Many1_byte_run pred p Hm fuel st Hb) as H.
  destruct (span pred (rest st)) as [|c run]; split; intros E.
  - exact H.
  - congruence.
  - discriminate.
  - apply H. simpl in Hf. lia.
Qed.

Lemma Many1_reads_longest_run_witness :
  (exists e, Digits 0%nat (mkState "x12" 0 1)
             = Returns (Err e) (mkState "x12" 0 1)) /\
  Digits 2%nat (mkState "x12" 1 1)
    = Returns (Ok (VList [VByte "1"; VByte "2"])) (mkState "x12" 3 1).
Proof.
  split.
  - apply (proj1 (Many1_reads_longest_run _ Digit 0%nat (mkState "x12" 0 1)
                    (OneOf_matcher "0123456789")
                    ltac:(vm_compute; split; discriminate)
                    ltac:(vm_compute; lia))).
    reflexivity.
  - apply (proj2 (Many1_reads_longest_run _ Digit 2%nat (mkState "x12" 1 1)
                    (OneOf_matcher "0123456789")
                    ltac:(vm_compute; split; discriminate)
                    ltac:(vm_compute; lia))).
    vm_compute. discriminate.
Defined.

(** ** The derived character classes *)

Lemma next_ext pred pred' st :
  (forall c, pred c = pred' c) -> next pred st = next pred' st.
Proof.
  intros H. unfold next.
  destruct (Pos st <? len (Source st)); [|reflexivity].
  destruct (Pos st <? 0); [reflexivity|].
  destruct (String.get (Z.to_nat (Pos st)) (Source st)); [|reflexivity].
  now rewrite H.
Qed.

Lemma byte_matcher_ext pred pred' p :
  (forall c, pred c = pred' c) ->
  byte_matcher pred p -> byte_matcher pred' p.
Proof.
  intros H Hm fuel st. rewrite <- (next_ext pred pred' st H). apply Hm.
Qed.

(** A choice between two single-byte matchers matches one byte accepted
    by either. *)
Lemma Either_matcher pred1 pred2 p1 p2 :
  byte_matcher pred1 p1 -> byte_matcher pred2 p2 ->
  byte_matcher (fun c => pred1 c || pred2 c) (Either p1 p2).
Proof.
  intros H1 H2 fuel st. specialize (H1 fuel st). specialize (H2 fuel st).
  unfold Either. unfold next in *.
  destruct (Pos st <? len (Source st)).
  - destruct (Pos st <? 0); [now rewrite H1|].
    destruct (String.get (Z.to_nat (Pos st)) (Source st)) as [c|];
      [|now rewrite H1].
    destruct (pred1 c); simpl in *.
    + now rewrite H1.
    + destruct H1 as [e H1]. rewrite H1, Z.eqb_refl.
      destruct (pred2 c); simpl in *; exact H2.
  - destruct H1 as [e H1]. rewrite H1, Z.eqb_refl. exact H2.
Qed.

Lemma OneOf_occurs_matcher set :
  byte_matcher (fun c => occurs c set) (OneOf set).
Proof.
  apply (byte_matcher_ext (fun c => IndexByte set c >=? 0)).
  - intros c. apply IndexByte_geb.
  - apply OneOf_matcher.
Qed.

Lemma Letter_matcher : byte_matcher is_letter Letter.
Proof.
  unfold Letter, Lowercase, Uppercase.
  apply (Either_matcher (fun c => occurs c _) (fun c => occurs c _));
    apply OneOf_occurs_matcher.
Qed.

Lemma AlphaNum_matcher : byte_matcher is_alphanum AlphaNum.
Proof.
  unfold AlphaNum, Digit.
  apply (Either_matcher is_letter (fun c => occurs c _)).
  - apply Letter_matcher.
  - apply OneOf_occurs_matcher.
Qed.

(** X4. [AlphaNums] fails, leaving the cursor as it was, when the byte
    under the cursor is not a letter or a decimal digit (or no byte is
    left); otherwise it reads the longest run of letters and digits and
    yields its bytes in order. *)
Theorem AlphaNums_reads_run (fuel : nat) (st : ParseState) :
  in_bounds st ->
  (String.length (span is_alphanum (rest st)) <= fuel)%nat ->
  (span is_alphanum (rest st) = EmptyString ->
   exists e, AlphaNums fuel st = Returns (Err e) st) /\
  (span is_alphanum (rest st) <> EmptyString ->
   AlphaNums fuel st =
     Returns (Ok (VList (byte_values (span is_alphanum (rest st)))))
       (mkState (Source st)
          (Pos st + len (span is_alphanum (rest st)))
          (Line st + newlines_in (span is_alphanum (rest st))))).
Proof.
  intros Hb Hf.
  pose proof (Many1_byte_run is_alphanum AlphaNum AlphaNum_matcher
                fuel st Hb) as H.
  unfold AlphaNums.
  destruct (span is_alphanum (rest st)) as [|c run]; split; intros E.
  - exact H.
  - congruence.
  - discriminate.
  - apply H. simpl in Hf. lia.
Qed.

Lemma AlphaNums_reads_run_witness :
  AlphaNums 3%nat (mkState "a1Z-" 0 1)
    = Returns (Ok (VList [VByte "a"; VByte "1"; VByte "Z"]))
        (mkState "a1Z-" 3 1).
Proof.
  apply (proj2 (AlphaNums_reads_run 3%nat (mkState "a1Z-" 0 1)
                  ltac:(vm_compute; split; discriminate)
                  ltac:(vm_compute; lia))).
  vm_compute. discriminate.
Defined.

(** X5. [HexDigit] does not accept the lowercase byte 'b', which its set
    "0123456789acdefABCDEF" lacks: with 'b' under the cursor it fails and
    leaves the cursor as it was, where it consumes an uppercase 'B'. *)
Theorem HexDigit_rejects_b (fuel : nat) (st : ParseState) (r : string) :
  in_bounds st ->
  (rest st = String.String "b" r ->
   exists e, HexDigit fuel st = Returns (Err e) st) /\
  (rest st = String.String "B" r ->
   HexDigit fuel st
     = Returns (Ok (VByte "B")) (mkState (Source st) (Pos st + 1) (Line st))).
Proof.
  intros Hb.
  pose proof (byte_matcher_rest _ _ fuel st
                (OneOf_occurs_matcher "0123456789acdefABCDEF") Hb) as H.
  split; intros Hr; rewrite Hr in H; destruct H as [H _]; simpl in H.
  - exact H.
  - unfold HexDigit. rewrite H. unfold consumed, len. simpl.
    do 2 f_equal. lia.
Qed.

Lemma HexDigit_rejects_b_witness :
  exists e, HexDigit 0%nat (mkState "0xb" 2 1)
            = Returns (Err e) (mkState "0xb" 2 1).
Proof.
  apply (proj1 (HexDigit_rejects_b 0%nat (mkState "0xb" 2 1) ""
                  ltac:(vm_compute; split; discriminate))).
  reflexivity.
Defined.

(** ** Sequences of bytes as text *)

Lemma bytes_of_byte_values (s : string) : bytes_of (byte_values s) = Some s.
Proof.
  induction s as [|c s IH]; simpl; [reflexivity|]. now rewrite IH.
Qed.

Lemma bytes_of_Some (xs : list Value) :
  forall s, bytes_of xs = Some s -> xs = byte_values s.
Proof.
  induction xs as [|x xs IH]; intros s H; simpl in H.
  - now inversion H.
  - destruct x; try discriminate.
    destruct (bytes_of xs) as [bs|]; [|discriminate].
    inversion H; subst. simpl. now rewrite (IH bs eq_refl).
Qed.

(** X6. [ToString p] passes a failure of [p] on.  When [p] succeeds with a
    sequence whose elements are all bytes, [ToString p] succeeds with
    those bytes as a string and the same cursor; when [p] succeeds with
    any other payload (not a sequence, or a sequence with an element that
    is not a byte), [ToString p] panics: it never returns a failure of its
    own. *)
Theorem ToString_bytes_or_panic (p : Parser) (fuel : nat) (st : ParseState) :
  (forall e st', p fuel st = Returns (Err e) st' ->
                 ToString p fuel st = Returns (Err e) st') /\
  (forall s st', p fuel st = Returns (Ok (VList (byte_values s))) st' ->
                 ToString p fuel st = Returns (Ok (VString s)) st') /\
  (forall x st', p fuel st = Returns (Ok x) st' ->
                 (forall s, x <> VList (byte_values s)) ->
                 ToString p fuel st = Panics).
Proof.
  split; [|split].
  - intros e st' H. unfold ToString, Bind. now rewrite H.
  - intros s st' H. unfold ToString, Bind. rewrite H.
    now rewrite bytes_of_byte_values.
  - intros x st' H Hx. unfold ToString, Bind. rewrite H.
    destruct x as [| | |xs]; try reflexivity.
    destruct (bytes_of xs) as [bs|] eqn:E; [|reflexivity].
    apply bytes_of_Some in E. exfalso. apply (Hx bs). now rewrite E.
Qed.

Lemma ToString_bytes_or_panic_witness :
  ToString (Many (Char "a")) 3%nat (mkState "aab" 0 1)
    = Returns (Ok (VString "aa")) (mkState "aab" 2 1) /\
  ToString (Char "a") 0%nat (mkState "aab" 0 1) = Panics /\
  ToString (Many (String "a")) 3%nat (mkState "aab" 0 1) = Panics.
Proof.
  split; [|split].
  - apply (proj1 (proj2 (ToString_bytes_or_panic (Many (Char "a")) 3%nat
                           (mkState "aab" 0 1))) "aa").
    reflexivity.
  - apply (proj2 (proj2 (ToString_bytes_or_panic (Char "a") 0%nat
                           (mkState "aab" 0 1)))
             (VByte "a") (mkState "aab" 1 1)).
    + reflexivity.
    + intros s. discriminate.
  - apply (proj2 (proj2 (ToString_bytes_or_panic (Many (String "a")) 3%nat
                           (mkState "aab" 0 1)))
             (VList [VString "a"; VString "a"]) (mkState "aab" 2 1)).
    + reflexivity.
    + intros [|c s]; discriminate.
Defined.

Lemma span_all (s : string) : span (fun _ => true) s = s.
Proof. induction s as [|c s IH]; simpl; congruence. Qed.

(** X7. Reading everything and turning it into text gives the input back:
    [Many(AnyChar).ToString()] parses every source to that same source,
    given more fuel than the source has bytes. *)
Theorem Parse_ToString_Many_AnyChar (source : string) (fuel : nat) :
  (String.length source < fuel)%nat ->
  Parse (ToString (Many AnyChar)) fuel source
    = ParseReturns (Ok (VString source)).
Proof.
  intros Hf. unfold Parse, ToString, Bind.
  rewrite (Many_byte_run (fun _ => true) AnyChar AnyChar_matcher).
  - unfold rest. simpl. rewrite span_all.
    now rewrite bytes_of_byte_values.
  - unfold in_bounds, len. simpl. lia.
  - unfold rest. simpl. now rewrite span_all.
Qed.

Lemma Parse_ToString_Many_AnyChar_witness :
  Parse (ToString (Many AnyChar)) 4 nl_x = ParseReturns (Ok (VString nl_x)).
Proof.
  apply (Parse_ToString_Many_AnyChar nl_x 4). vm_compute. lia.
Defined.

(** X8. [SkipMany] of a single-byte matcher skips the longest run of bytes
    the matcher accepts and yields [nil]; it does not fail. *)
Theorem SkipMany_skips_longest_run (pred : ascii -> bool) (p : Parser)
    (fuel : nat) (st : ParseState) :
  byte_matcher pred p ->
  in_bounds st ->
  (String.length (span pred (rest st)) < fuel)%nat ->
  SkipMany p fuel st =
    Returns (Ok VNil)
      (mkState (Source st)
         (Pos st + len (span pred (rest st)))
         (Line st + newlines_in (span pred (rest st)))).
Proof.
  intros Hm Hb Hf. unfold SkipMany, Skip, Or, Either, Then.
  now rewrite (Many_byte_run pred p Hm fuel st Hb Hf).
Qed.

Lemma SkipMany_skips_longest_run_witness :
  SkipMany Space 3%nat (mkState "  x" 0 1)
    = Returns (Ok VNil) (mkState "  x" 2 1).
Proof.
  apply (SkipMany_skips_longest_run _ Space 3%nat (mkState "  x" 0 1)
           (OneOf_matcher _)).
  - vm_compute. split; discriminate.
  - vm_compute. lia.
Defined.

(** ** Literals, by what is left to read *)

Lemma String_loop_rest (s : string) (oldPos : Z) (cs : string) :
  forall st,
    in_bounds st ->
    String_loop s oldPos cs st =
      if String.prefix cs (rest st)
      then Returns (Ok (VString s)) (consumed st cs)
      else
        Returns
          (Err (mkErr "Expected '%s'" [ArgString s]
                  (Line st + newlines_in (common_prefix cs (rest st)))))
          (mkState (Source st) oldPos
             (Line st + newlines_in (common_prefix cs (rest st)))).
Proof.
  induction cs as [|a cs IH]; intros st Hb; simpl.
  - destruct (rest st); simpl; now rewrite consumed_nil.
  - destruct (rest st) as [|b r] eqn:Hr.
    + rewrite (next_rest_nil _ st Hb Hr). unfold trap, setPos. simpl.
      now rewrite Z.add_0_r.
    + destruct (next_rest_cons (fun x => Ascii.eqb x a) st b r Hb Hr)
        as [Hn [Hb1 Hr1]].
      rewrite Hn. simpl.
      destruct (Ascii.eqb b a) eqn:E.
      * apply Ascii.eqb_eq in E. subst b.
        destruct (ascii_dec a a) as [_|N]; [|congruence].
        rewrite (IH _ Hb1), Hr1.
        destruct (String.prefix cs r).
        -- now rewrite consumed_cons.
        -- unfold consumed. simpl.
           now rewrite Z.add_0_r, <- Z.add_assoc.
      * destruct (ascii_dec a b) as [Y|_].
        -- subst b. rewrite Ascii.eqb_refl in E. discriminate.
        -- unfold trap, setPos. simpl. now rewrite Z.add_0_r.
Qed.

(** X9. [String s] succeeds exactly when the input at the cursor starts
    with [s]: it then yields [s], with the position moved past it and the
    line counter raised by the newlines of [s].  Otherwise it fails with
    the position where it was, and the line counter raised by the
    newlines of the part of [s] that did match. *)
Theorem String_matches_prefix (s : string) (fuel : nat) (st : ParseState) :
  in_bounds st ->
  (String.prefix s (rest st) = true ->
   String s fuel st =
     Returns (Ok (VString s))
       (mkState (Source st) (Pos st + len s) (Line st + newlines_in s))) /\
  (String.prefix s (rest st) = false ->
   String s fuel st =
     Returns
       (Err (mkErr "Expected '%s'" [ArgString s]
               (Line st + newlines_in (common_prefix s (rest st)))))
       (mkState (Source st) (Pos st)
          (Line st + newlines_in (common_prefix s (rest st))))).
Proof.
  intros Hb. unfold String. rewrite (String_loop_rest s (Pos st) s st Hb).
  split; intros E; now rewrite E.
Qed.

Lemma String_matches_prefix_witness :
  String "lo" 0%nat (mkState "hello" 3 1)
    = Returns (Ok (VString "lo")) (mkState "hello" 5 1) /\
  String "lx" 0%nat (mkState "hello" 3 1)
    = Returns (Err (mkErr "Expected '%s'" [ArgString "lx"] 1))
        (mkState "hello" 3 1).
Proof.
  split.
  - apply (proj1 (String_matches_prefix "lo" 0%nat (mkState "hello" 3 1)
                    ltac:(vm_compute; split; discriminate))).
    reflexivity.
  - apply (proj2 (String_matches_prefix "lx" 0%nat (mkState "hello" 3 1)
                    ltac:(vm_compute; split; discriminate))).
    reflexivity.
Defined.

(** ** Reading until an end marker *)

Lemma ManyTill_unfold p end_ fuel st :
  ManyTill p end_ (S fuel) st =
    Either (Then (Try end_) (Return (VList [])))
      (Bind p (fun x =>
         Bind (ManyTill p end_) (fun xs => Return_appendx x xs)))
      fuel st.
Proof. reflexivity. Qed.

Lemma AnyChar_at_end fuel st :
  in_bounds st -> rest st = EmptyString ->
  AnyChar fuel st
    = Returns (Err (mkErr "Unexpected end of file" [] (Line st))) st.
Proof.
  intros Hb Hr. unfold AnyChar. now rewrite (next_rest_nil _ st Hb Hr).
Qed.

Lemma ManyTill_AnyChar_Char c fuel :
  forall st,
    in_bounds st ->
    (String.length (span (fun b => negb (Ascii.eqb b c)) (rest st)) < fuel)%nat ->
    ManyTill AnyChar (Char c) fuel st =
      if occurs c (rest st) then
        Returns
          (Ok (VList (byte_values
                        (span (fun b => negb (Ascii.eqb b c)) (rest st)))))
          (consumed st
             (span (fun b => negb (Ascii.eqb b c)) (rest st)
              ++ String.String c ""))
      else
        Returns
          (Err (mkErr "Unexpected end of file" []
                  (Line st + newlines_in (rest st))))
          (consumed st (rest st)).
Proof.
  induction fuel as [|fuel IH]; intros st Hb Hf; [lia|].
  rewrite ManyTill_unfold. unfold Either, Then, Try, Bind.
  pose proof (byte_matcher_rest _ _ fuel st (Char_matcher c) Hb) as HC.
  pose proof (byte_matcher_rest _ _ fuel st AnyChar_matcher Hb) as HA.
  destruct (rest st) as [|b r] eqn:Hr.
  - destruct HC as [e HC]. rewrite HC, setPos_same, Z.eqb_refl.
    rewrite (AnyChar_at_end fuel st Hb Hr). simpl.
    now rewrite consumed_nil, Z.add_0_r.
  - destruct HC as [HC [Hb1 Hr1]]. destruct HA as [HA _].
    simpl in *. destruct (Ascii.eqb b c) eqn:E; simpl in *.
    + apply Ascii.eqb_eq in E. subst b. now rewrite HC.
    + destruct HC as [e HC]. rewrite HC, setPos_same, Z.eqb_refl.
      rewrite HA. rewrite IH; [|exact Hb1|rewrite Hr1; lia].
      rewrite Hr1. destruct (occurs c r); simpl.
      * now rewrite consumed_cons.
      * rewrite consumed_cons. unfold consumed. simpl.
        now rewrite Z.add_0_r, <- Z.add_assoc.
Qed.

(** X10. [ManyTill AnyChar (Char c)] reads up to the first [c]: when [c]
    occurs in what is left, it yields the bytes before the first [c] and
    leaves the cursor just past that [c]; when it does not, every byte is
    consumed and the call fails with "Unexpected end of file". *)
Theorem ManyTill_reads_until_byte (c : ascii) (fuel : nat)
    (st : ParseState) :
  in_bounds st ->
  (String.length (span (fun b => negb (Ascii.eqb b c)) (rest st)) < fuel)%nat ->
  (occurs c (rest st) = true ->
   ManyTill AnyChar (Char c) fuel st =
     Returns
       (Ok (VList (byte_values
                     (span (fun b => negb (Ascii.eqb b c)) (rest st)))))
       (consumed st
          (span (fun b => negb (Ascii.eqb b c)) (rest st)
           ++ String.String c ""))) /\
  (occurs c (rest st) = false ->
   ManyTill AnyChar (Char c) fuel st =
     Returns
       (Err (mkErr "Unexpected end of file" []
               (Line st + newlines_in (rest st))))
       (mkState (Source st) (len (Source st))
          (Line st + newlines_in (rest st)))).
Proof.
  intros Hb Hf. rewrite (ManyTill_AnyChar_Char c fuel st Hb Hf).
  split; intros E; rewrite E; [reflexivity|].
  unfold consumed. rewrite (rest_length st Hb).
  do 2 f_equal. lia.
Qed.

Lemma ManyTill_reads_until_byte_witness :
  ManyTill AnyChar (Char ";") 3%nat (mkState "ab;c" 0 1)
    = Returns (Ok (VList [VByte "a"; VByte "b"])) (mkState "ab;c" 3 1) /\
  ManyTill AnyChar (Char ";") 3%nat (mkState "ab" 0 1)
    = Returns (Err (mkErr "Unexpected end of file" [] 1)) (mkState "ab" 2 1).
Proof.
  split.
  - apply (proj1 (ManyTill_reads_until_byte ";" 3%nat (mkState "ab;c" 0 1)
                    ltac:(vm_compute; split; discriminate)
                    ltac:(vm_compute; lia))).
    reflexivity.
  - apply (proj2 (ManyTill_reads_until_byte ";" 3%nat (mkState "ab" 0 1)
                    ltac:(vm_compute; split; discriminate)
                    ltac:(vm_compute; lia))).
    reflexivity.
Defined.

Lemma Eof_at_end fuel st :
  in_bounds st -> rest st = EmptyString -> Eof fuel st = Returns (Ok VNil) st.
Proof.
  intros Hb Hr. unfold Eof. now rewrite (next_rest_nil _ st Hb Hr).
Qed.

Lemma ManyTill_AnyChar_Eof fuel :
  forall st,
    in_bounds st ->
    (String.length (rest st) < fuel)%nat ->
    ManyTill AnyChar Eof fuel st =
      Returns (Ok (VList (byte_values (rest st))))
        (mkState (Source st) (Pos st + len (rest st))
           (Line st + 2 * newlines_in (rest st))).
Proof.
  induction fuel as [|fuel IH]; intros st Hb Hf; [lia|].
  rewrite ManyTill_unfold. unfold Either, Then, Try, Bind.
  destruct (rest st) as [|b r] eqn:Hr.
  - rewrite (Eof_at_end fuel st Hb Hr). unfold Return, len. simpl.
    destruct st as [s p l]. simpl. do 2 f_equal; lia.
  - destruct (next_rest_cons (fun _ => true) st b r Hb Hr) as [Hn [Hb1 Hr1]].
    unfold Eof at 1. rewrite Hn. cbv beta iota.
    unfold setPos at 1. cbn [Pos]. rewrite Z.eqb_refl.
    set (st2 := setPos (consumed st (String.String b "")) (Pos st)).
    assert (Hb2 : in_bounds st2) by exact Hb.
    assert (Hr2 : rest st2 = String.String b r) by exact Hr.
    destruct (next_rest_cons (fun _ => true) st2 b r Hb2 Hr2)
      as [Hn2 [Hb3 Hr3]].
    unfold AnyChar. rewrite Hn2.
    rewrite IH; [|exact Hb3|rewrite Hr3; simpl in Hf; lia].
    rewrite Hr3. unfold Return_appendx, appendx, Return.
    cbn [byte_values]. f_equal.
    unfold st2, setPos, consumed, len.
    cbn [Source Pos Line newlines_in String.length].
    f_equal; destruct (Ascii.eqb b newline); lia.
Qed.

(** X11. [ManyTill AnyChar Eof] reads every byte that is left and yields
    them in order, but it counts every newline twice: each probe of [Eof]
    consumes the byte and raises the line counter, [Try] sets back the
    position only, and [AnyChar] then reads the same byte again. *)
Theorem ManyTill_Eof_counts_newlines_twice (fuel : nat) (st : ParseState) :
  in_bounds st ->
  (String.length (rest st) < fuel)%nat ->
  ManyTill AnyChar Eof fuel st =
    Returns (Ok (VList (byte_values (rest st))))
      (mkState (Source st) (len (Source st))
         (Line st + 2 * newlines_in (rest st))).
Proof.
  intros Hb Hf. rewrite (ManyTill_AnyChar_Eof fuel st Hb Hf).
  rewrite (rest_length st Hb). do 2 f_equal. lia.
Qed.

Lemma ManyTill_Eof_counts_newlines_twice_witness :
  ManyTill AnyChar Eof 3%nat (mkState nl_y 0 1)
    = Returns (Ok (VList [VByte newline; VByte "y"])) (mkState nl_y 2 3).
Proof.
  apply (ManyTill_Eof_counts_newlines_twice 3%nat (mkState nl_y 0 1)).
  - vm_compute. split; discriminate.
  - vm_compute. lia.
Defined.

(** ** Repetition without progress *)

(** X12. [Many p] never returns when [p] neither fails nor panics, as
    [Return x], [Spaces] or another [Many] do: after each success of [p]
    the repetition calls itself again, whatever the fuel. *)
Theorem Many_of_unfailing_parser_never_returns (p : Parser) :
  (forall fuel st,
      in_bounds st ->
      p fuel st = OutOfFuel \/
      exists x st', p fuel st = Returns (Ok x) st' /\ in_bounds st') ->
  forall fuel st, in_bounds st -> Many p fuel st = OutOfFuel.
Proof.
  intros Hp fuel. induction fuel as [|fuel IH]; intros st Hb; [reflexivity|].
  rewrite Many_unfold. unfold Either, Many1, Bind.
  destruct (Hp fuel st Hb) as [H|[x [st' [H Hb']]]]; rewrite H.
  - reflexivity.
  - now rewrite (IH st' Hb').
Qed.

Lemma Spaces_succeeds fuel st :
  in_bounds st ->
  exists x st', Spaces fuel st = Returns (Ok x) st' /\ in_bounds st'.
Proof.
  intros Hb. unfold Spaces, Skip, Or, Either, Then.
  pose proof (byte_matcher_rest _ _ fuel st
                (OneOf_matcher (String.String " " (String.String tab "")))
                Hb) as H.
  unfold Space.
  destruct (rest st) as [|c r].
  - destruct H as [e H]. rewrite H, Z.eqb_refl. unfold Return. eauto.
  - destruct H as [H [Hb1 _]].
    destruct (IndexByte (String.String " " (String.String tab "")) c >=? 0).
    + rewrite H. unfold Return. eauto.
    + destruct H as [e H]. rewrite H, Z.eqb_refl. unfold Return. eauto.
Qed.

Lemma Many_of_unfailing_parser_never_returns_witness :
  Many Spaces 5 (mkState " x" 0 1) = OutOfFuel.
Proof.
  apply (Many_of_unfailing_parser_never_returns Spaces).
  - intros f st Hb. right. now apply Spaces_succeeds.
  - vm_compute. split; discriminate.
Defined.

(** ** How the control combinators compose *)

(** X13. [Return] and [Bind] obey the monad laws, and [Then] is [Bind] with
    the value dropped: [Return x] bound to [f] is [f x]; [p] bound to
    [Return] is [p]; binding is associative. *)
Theorem Bind_Return_laws :
  (forall x f fuel st, Bind (Return x) f fuel st = f x fuel st) /\
  (forall p fuel st, Bind p Return fuel st = p fuel st) /\
  (forall p f g fuel st,
      Bind (Bind p f) g fuel st = Bind p (fun x => Bind (f x) g) fuel st) /\
  (forall p1 p2 fuel st, Then p1 p2 fuel st = Bind p1 (fun _ => p2) fuel st).
Proof.
  split; [|split; [|split]].
  - reflexivity.
  - intros p fuel st. unfold Bind, Return.
    now destruct (p fuel st) as [[x|e] st'| |].
  - intros p f g fuel st. unfold Bind.
    now destruct (p fuel st) as [[x|e] st'| |].
  - reflexivity.
Qed.

(** X14. Choice is associative, [Fail msg] is a left unit of it, and a
    parser that succeeds without looking at the input hides every
    alternative after it. *)
Theorem Either_laws :
  (forall p q r fuel st,
      Either (Either p q) r fuel st = Either p (Either q r) fuel st) /\
  (forall msg p fuel st, Either (Fail msg) p fuel st = p fuel st) /\
  (forall x p fuel st, Either (Return x) p fuel st = Returns (Ok x) st).
Proof.
  split; [|split].
  - intros p q r fuel st. unfold Either.
    destruct (p fuel st) as [[x|e] st1| |]; try reflexivity.
    destruct (Pos st1 =? Pos st) eqn:E.
    + apply Z.eqb_eq in E. rewrite E. reflexivity.
    + now rewrite E.
  - intros msg p fuel st. unfold Either, Fail. now rewrite Z.eqb_refl.
  - reflexivity.
Qed.

(** X15. [Try] changes nothing for a parser whose failures leave the
    position in place, and applying [Try] twice is applying it once. *)
Theorem Try_laws (p : Parser) (fuel : nat) (st : ParseState) :
  ((forall e st', p fuel st = Returns (Err e) st' -> Pos st' = Pos st) ->
   Try p fuel st = p fuel st) /\
  Try (Try p) fuel st = Try p fuel st.
Proof.
  split.
  - intros H. unfold Try.
    destruct (p fuel st) as [[x|e] st'| |] eqn:E; try reflexivity.
    rewrite <- (H e st' eq_refl). now rewrite setPos_same.
  - unfold Try. now destruct (p fuel st) as [[x|e] st'| |].
Qed.

Lemma Try_laws_witness :
  Try (Char "a") 0%nat (mkState "b" 0 1) = Char "a" 0%nat (mkState "b" 0 1).
Proof.
  apply (proj1 (Try_laws (Char "a") 0%nat (mkState "b" 0 1))).
  intros e st' H. now inversion H.
Defined.

(** X16. [Between]: the value is that of the bracketed parser and the
    cursor is the one the closing parser leaves; a failure of the opening
    parser, of the bracketed parser or of the closing parser is the
    failure of the whole, with the cursor where that parser left it. *)
Theorem Between_brackets (p start end_ : Parser) (fuel : nat)
    (st : ParseState) :
  (forall e s1, start fuel st = Returns (Err e) s1 ->
                Between p start end_ fuel st = Returns (Err e) s1) /\
  (forall y s1 e s2,
      start fuel st = Returns (Ok y) s1 ->
      p fuel s1 = Returns (Err e) s2 ->
      Between p start end_ fuel st = Returns (Err e) s2) /\
  (forall y s1 x s2 e s3,
      start fuel st = Returns (Ok y) s1 ->
      p fuel s1 = Returns (Ok x) s2 ->
      end_ fuel s2 = Returns (Err e) s3 ->
      Between p start end_ fuel st = Returns (Err e) s3) /\
  (forall y s1 x s2 z s3,
      start fuel st = Returns (Ok y) s1 ->
      p fuel s1 = Returns (Ok x) s2 ->
      end_ fuel s2 = Returns (Ok z) s3 ->
      Between p start end_ fuel st = Returns (Ok x) s3).
Proof.
  unfold Between, Then, Bind, Return.
  split; [|split; [|split]].
  - intros e s1 H. now rewrite H.
  - intros y s1 e s2 H1 H2. now rewrite H1, H2.
  - intros y s1 x s2 e s3 H1 H2 H3. now rewrite H1, H2, H3.
  - intros y s1 x s2 z s3 H1 H2 H3. now rewrite H1, H2, H3.
Qed.

Lemma Between_brackets_witness :
  Between Digits (Char "(") (Char ")") 2%nat (mkState "(42)" 0 1)
    = Returns (Ok (VList [VByte "4"; VByte "2"])) (mkState "(42)" 4 1) /\
  Between Digits (Char "(") (Char ")") 2%nat (mkState "(42" 0 1)
    = Returns (Err (mkErr "Expected '%c'" [ArgByte ")"%char] 1))
        (mkState "(42" 3 1).
Proof.
  split.
  - apply (proj2 (proj2 (proj2
             (Between_brackets Digits (Char "(") (Char ")") 2%nat
                (mkState "(42)" 0 1))))
             (VByte "(") (mkState "(42)" 1 1) _ (mkState "(42)" 3 1)
             (VByte ")")); reflexivity.
  - apply (proj1 (proj2 (proj2
             (Between_brackets Digits (Char "(") (Char ")") 2%nat
                (mkState "(42" 0 1))))
             (VByte "(") (mkState "(42" 1 1)
             (VList [VByte "4"; VByte "2"]) (mkState "(42" 3 1));
      reflexivity.
Defined.

(** ** Positions and error lines *)

Lemma sound_run_seq st r1 s1 r st' :
  sound_run st r1 s1 -> sound_run s1 r st' -> sound_run st r st'.
Proof.
  unfold sound_run. intros [H1 _] [H2 H3]. split; [lia | exact H3].
Qed.

Lemma next_Pos_le pred st c ok st' :
  next pred st = NextRet c ok st' -> Pos st <= Pos st'.
Proof.
  intros H.
  destruct (next_inv _ _ _ _ _ H) as [[_ Hs]|[_ [_ [_ [_ Hs]]]]]; subst st';
    simpl; lia.
Qed.

Section SoundCombinators.

Variable fuel : nat.

Lemma Sound_panic : SoundAt fuel panic.
Proof. intros st r st' H. discriminate. Qed.

Lemma Sound_Return x : SoundAt fuel (Return x).
Proof.
  intros st r st' H. inversion H; subst. split; [lia | exact I].
Qed.

Lemma Sound_Fail msg : SoundAt fuel (Fail msg).
Proof.
  intros st r st' H. inversion H; subst. split; [lia | reflexivity].
Qed.

Lemma Sound_AnyChar : SoundAt fuel AnyChar.
Proof.
  intros st r st' H. unfold AnyChar in H.
  destruct (next (fun _ => true) st) as [c [|] s1|] eqn:Hn;
    inversion H; subst; (split; [eapply next_Pos_le; eassumption|]);
    simpl; auto.
Qed.

Lemma Sound_Eof : SoundAt fuel Eof.
Proof.
  intros st r st' H. unfold Eof in H.
  destruct (next (fun _ => true) st) as [c [|] s1|] eqn:Hn;
    inversion H; subst; (split; [eapply next_Pos_le; eassumption|]);
    simpl; auto.
Qed.

Lemma Sound_Char c : SoundAt fuel (Char c).
Proof.
  intros st r st' H. unfold Char in H.
  destruct (next (fun b => Ascii.eqb b c) st) as [x [|] s1|] eqn:Hn;
    inversion H; subst; (split; [eapply next_Pos_le; eassumption|]);
    simpl; auto.
Qed.

Lemma Sound_OneOf set : SoundAt fuel (OneOf set).
Proof.
  intros st r st' H. unfold OneOf in H.
  destruct (next (fun c => IndexByte set c >=? 0) st) as [x [|] s1|] eqn:Hn;
    inversion H; subst; (split; [eapply next_Pos_le; eassumption|]);
    simpl; auto.
Qed.

Lemma Sound_NoneOf set : SoundAt fuel (NoneOf set).
Proof.
  intros st r st' H. unfold NoneOf in H.
  destruct (next (fun c => IndexByte set c <? 0) st) as [x [|] s1|] eqn:Hn;
    inversion H; subst; (split; [eapply next_Pos_le; eassumption|]);
    simpl; auto.
Qed.

Lemma String_loop_Pos_le s oldPos cs :
  forall st r st',
    oldPos <= Pos st ->
    String_loop s oldPos cs st = Returns r st' -> oldPos <= Pos st'.
Proof.
  induction cs as [|c cs IH]; intros st r st' Hle H; simpl in H.
  - now inversion H; subst.
  - destruct (next (fun b => Ascii.eqb b c) st) as [x [|] s1|] eqn:Hn;
      try discriminate.
    + apply (IH s1 r st'); [|exact H].
      apply next_Pos_le in Hn. lia.
    + inversion H; subst. simpl. lia.
Qed.

Lemma Sound_String s : SoundAt fuel (String s).
Proof.
  intros st r st' H. unfold String in H. split.
  - eapply String_loop_Pos_le; [|exact H]. lia.
  - destruct r as [x|e]; [exact I|].
    now apply String_loop_failure in H.
Qed.

Lemma Sound_Bind p f :
  SoundAt fuel p -> (forall x, SoundAt fuel (f x)) -> SoundAt fuel (Bind p f).
Proof.
  intros Hp Hf st r st' H. unfold Bind in H.
  destruct (p fuel st) as [[x|e] s1| |] eqn:E; try discriminate.
  - eapply sound_run_seq; [apply (Hp _ _ _ E) | apply (Hf x _ _ _ H)].
  - inversion H; subst. apply (Hp _ _ _ E).
Qed.

Lemma Sound_Then p1 p2 :
  SoundAt fuel p1 -> SoundAt fuel p2 -> SoundAt fuel (Then p1 p2).
Proof.
  intros H1 H2 st r st' H. unfold Then in H.
  destruct (p1 fuel st) as [[x|e] s1| |] eqn:E; try discriminate.
  - eapply sound_run_seq; [apply (H1 _ _ _ E) | apply (H2 _ _ _ H)].
  - inversion H; subst. apply (H1 _ _ _ E).
Qed.

Lemma Sound_Either p1 p2 :
  SoundAt fuel p1 -> SoundAt fuel p2 -> SoundAt fuel (Either p1 p2).
Proof.
  intros H1 H2 st r st' H. unfold Either in H.
  destruct (p1 fuel st) as [[x|e] s1| |] eqn:E; try discriminate.
  - inversion H; subst. apply (H1 _ _ _ E).
  - destruct (Pos s1 =? Pos st).
    + eapply sound_run_seq; [apply (H1 _ _ _ E) | apply (H2 _ _ _ H)].
    + inversion H; subst. apply (H1 _ _ _ E).
Qed.

Lemma Sound_Try p : SoundAt fuel p -> SoundAt fuel (Try p).
Proof.
  intros Hp st r st' H. unfold Try in H.
  destruct (p fuel st) as [[x|e] s1| |] eqn:E; try discriminate.
  - inversion H; subst. apply (Hp _ _ _ E).
  - inversion H; subst. destruct (Hp _ _ _ E) as [_ HL].
    split; [simpl; lia | exact HL].
Qed.

Lemma Sound_Return_appendx x xs : SoundAt fuel (Return_appendx x xs).
Proof.
  unfold Return_appendx. destruct (appendx x xs).
  - apply Sound_Return.
  - apply Sound_panic.
Qed.

Lemma Sound_ToString p : SoundAt fuel p -> SoundAt fuel (ToString p).
Proof.
  intros Hp. unfold ToString. apply Sound_Bind; [exact Hp|].
  intros [| |s|xs]; try apply Sound_panic.
  destruct (bytes_of xs); [apply Sound_Return | apply Sound_panic].
Qed.

Lemma Sound_Many1 p :
  SoundAt fuel p -> SoundAt fuel (Many p) -> SoundAt fuel (Many1 p).
Proof.
  intros Hp HM. unfold Many1. apply Sound_Bind; [exact Hp|].
  intros x. apply Sound_Bind; [exact HM|].
  intros xs. apply Sound_Return_appendx.
Qed.

Lemma Sound_Skip p : SoundAt fuel p -> SoundAt fuel (Skip p).
Proof.
  intros Hp. unfold Skip, Or.
  apply Sound_Either; [apply Sound_Then|]; auto using Sound_Return.
Qed.

Lemma Sound_Between p start end_ :
  SoundAt fuel p -> SoundAt fuel start -> SoundAt fuel end_ ->
  SoundAt fuel (Between p start end_).
Proof.
  intros Hp Hs He. unfold Between.
  apply Sound_Then; [exact Hs|]. apply Sound_Bind; [exact Hp|].
  intros x. apply Sound_Then; [exact He | apply Sound_Return].
Qed.

End SoundCombinators.

Lemma Sound_Many p :
  (forall fuel, SoundAt fuel p) -> forall fuel, SoundAt fuel (Many p).
Proof.
  intros Hp fuel. induction fuel as [|fuel IH].
  - intros st r st' H. discriminate.
  - intros st r st' H. rewrite Many_unfold in H. revert st r st' H.
    apply (Sound_Either fuel); [|apply Sound_Return].
    apply Sound_Many1; auto.
Qed.

Lemma Sound_ManyTill p end_ :
  (forall fuel, SoundAt fuel p) -> (forall fuel, SoundAt fuel end_) ->
  forall fuel, SoundAt fuel (ManyTill p end_).
Proof.
  intros Hp He fuel. induction fuel as [|fuel IH].
  - intros st r st' H. discriminate.
  - intros st r st' H. rewrite ManyTill_unfold in H. revert st r st' H.
    apply (Sound_Either fuel).
    + apply Sound_Then; [apply Sound_Try, He | apply Sound_Return].
    + apply Sound_Bind; [apply Hp|]. intros x.
      apply Sound_Bind; [exact IH|]. intros xs. apply Sound_Return_appendx.
Qed.

Lemma Sound_SepBy1 p sep :
  (forall fuel, SoundAt fuel p) -> (forall fuel, SoundAt fuel sep) ->
  forall fuel, SoundAt fuel (SepBy1 p sep).
Proof.
  intros Hp Hs fuel. unfold SepBy1.
  apply Sound_Bind; [apply Hp|]. intros x.
  apply Sound_Bind; [|intros xs; apply Sound_Return_appendx].
  apply Sound_Many. intros f. now apply Sound_Then.
Qed.

Lemma Built_Sound p : Built p -> forall fuel, SoundAt fuel p.
Proof.
  induction 1; intros fuel.
  - apply Sound_AnyChar.
  - apply Sound_Eof.
  - apply Sound_Char.
  - apply Sound_OneOf.
  - apply Sound_NoneOf.
  - apply Sound_String.
  - apply Sound_Return.
  - apply Sound_Fail.
  - apply Sound_Bind; auto.
  - apply Sound_Then; auto.
  - apply Sound_Either; auto.
  - apply Sound_Either; auto.
  - apply Sound_Try; auto.
  - apply Sound_ToString; auto.
  - apply Sound_Many1; auto. now apply Sound_Many.
  - now apply Sound_Many.
  - now apply Sound_ManyTill.
  - apply Sound_Skip; auto.
  - apply Sound_Skip. now apply Sound_Many.
  - apply Sound_Between; auto.
  - now apply Sound_SepBy1.
  - apply Sound_Either; [now apply Sound_SepBy1 | apply Sound_Return].
Qed.

(** X17. A parser built from the primitives and combinators of the library
    never returns with the position before the one it started from, from
    any cursor and whether it succeeds or fails: the backtracking of
    [Try] and [String] goes back to the start of the attempt at most. *)
Theorem Built_never_moves_back (p : Parser) (fuel : nat)
    (st st' : ParseState) (r : Result) :
  Built p ->
  p fuel st = Returns r st' ->
  Pos st <= Pos st'.
Proof.
  intros HB H. exact (proj1 (Built_Sound p HB fuel st r st' H)).
Qed.

Lemma Built_never_moves_back_witness :
  Pos (mkState "abc" 1 1) <= Pos (mkState "abc" 2 1).
Proof.
  apply (Built_never_moves_back (Either (Try (String "bx")) AnyChar) 0%nat
           (mkState "abc" 1 1) (mkState "abc" 2 1) (Ok (VByte "b"))).
  - apply Built_Either; [apply Built_Try, Built_String | apply Built_AnyChar].
  - reflexivity.
Defined.

(** X18. When a parser built from the primitives and combinators of the
    library fails, the line in its [ParseErr] is the line counter of the
    cursor as the failed call leaves it. *)
Theorem Built_error_line (p : Parser) (fuel : nat)
    (st st' : ParseState) (e : ParseErr) :
  Built p ->
  p fuel st = Returns (Err e) st' ->
  ErrLine e = Line st'.
Proof.
  intros HB H. exact (proj2 (Built_Sound p HB fuel st (Err e) st' H)).
Qed.

Lemma Built_error_line_witness :
  ErrLine (mkErr "Expected '%c'" [ArgByte "x"%char] 2)
    = Line (mkState nl_y 0 2).
Proof.
  apply (Built_error_line (Try (Then (Char newline) (Char "x"))) 0%nat
           (mkState nl_y 0 1)).
  - apply Built_Try, Built_Then; apply Built_Char.
  - reflexivity.
Defined.

(** ** What the repetition combinators yield *)

Lemma Bind_appendx_yields q x fuel st v st' :
  Bind q (fun xs => Return_appendx x xs) fuel st = Returns (Ok v) st' ->
  exists l, q fuel st = Returns (Ok (VList l)) st' /\ v = VList (x :: l).
Proof.
  unfold Bind.
  destruct (q fuel st) as [[xs|e] s1| |] eqn:E; try discriminate.
  intros H. apply Return_appendx_returns in H.
  destruct H as [l [Hxs [Hv Hs]]]. subst. inversion Hv; subst. eauto.
Qed.

Lemma Many1_yields p fuel st v st' :
  Many1 p fuel st = Returns (Ok v) st' -> exists y ys, v = VList (y :: ys).
Proof.
  unfold Many1, Bind at 1.
  destruct (p fuel st) as [[x|e] s1| |]; try discriminate.
  intros H. apply Bind_appendx_yields in H.
  destruct H as [l [_ Hv]]. eauto.
Qed.

Lemma Many_yields p fuel st v st' :
  Many p fuel st = Returns (Ok v) st' -> exists xs, v = VList xs.
Proof.
  destruct fuel as [|fuel]; [discriminate|].
  rewrite Many_unfold. unfold Either.
  destruct (Many1 p fuel st) as [[x|e] s1| |] eqn:E; try discriminate.
  - intros H. inversion H; subst.
    apply Many1_yields in E. destruct E as [y [ys E]]. eauto.
  - destruct (Pos s1 =? Pos st); [|discriminate].
    intros H. inversion H. eauto.
Qed.

Lemma SepBy1_yields p sep fuel st v st' :
  SepBy1 p sep fuel st = Returns (Ok v) st' ->
  exists y ys, v = VList (y :: ys).
Proof.
  unfold SepBy1, Bind at 1.
  destruct (p fuel st) as [[x|e] s1| |]; try discriminate.
  intros H. apply Bind_appendx_yields in H.
  destruct H as [l [_ Hv]]. eauto.
Qed.

Lemma ManyTill_yields p q fuel st v st' :
  ManyTill p q fuel st = Returns (Ok v) st' -> exists xs, v = VList xs.
Proof.
  destruct fuel as [|fuel]; [discriminate|].
  rewrite ManyTill_unfold. unfold Either, Then at 1.
  destruct (Try q fuel st) as [[x|e] s1| |]; try discriminate.
  - intros H. inversion H. eauto.
  - destruct (Pos s1 =? Pos st); [|discriminate].
    unfold Bind at 1.
    destruct (p fuel s1) as [[x|e1] s2| |]; try discriminate.
    intros H. apply Bind_appendx_yields in H.
    destruct H as [l [_ Hv]]. eauto.
Qed.

(** X19. What the repetition combinators yield on success is always a
    sequence, whatever the parsers they repeat: [Many], [ManyTill] and
    [SepBy] yield a sequence, [Many1] and [SepBy1] one that is not
    empty. *)
Theorem repetitions_yield_sequences (p q : Parser) (fuel : nat)
    (st st' : ParseState) (v : Value) :
  (Many p fuel st = Returns (Ok v) st' -> exists xs, v = VList xs) /\
  (Many1 p fuel st = Returns (Ok v) st' ->
   exists y ys, v = VList (y :: ys)) /\
  (ManyTill p q fuel st = Returns (Ok v) st' -> exists xs, v = VList xs) /\
  (SepBy1 p q fuel st = Returns (Ok v) st' ->
   exists y ys, v = VList (y :: ys)) /\
  (SepBy p q fuel st = Returns (Ok v) st' -> exists xs, v = VList xs).
Proof.
  split; [|split; [|split; [|split]]].
  - apply Many_yields.
  - apply Many1_yields.
  - apply ManyTill_yields.
  - intros H. apply SepBy1_yields in H. exact H.
  - unfold SepBy, Or, Either.
    destruct (SepBy1 p q fuel st) as [[x|e] s1| |] eqn:E; try discriminate.
    + intros H. inversion H; subst.
      apply SepBy1_yields in E. destruct E as [y [ys E]]. eauto.
    + destruct (Pos s1 =? Pos st); [|discriminate].
      intros H. inversion H. eauto.
Qed.

Lemma repetitions_yield_sequences_witness :
  exists y ys, VList [VByte "1"; VByte "2"] = VList (y :: ys).
Proof.
  apply (proj1 (proj2 (repetitions_yield_sequences Digit Digit 2%nat
                         (mkState "12" 0 1) (mkState "12" 2 1)
                         (VList [VByte "1"; VByte "2"])))).
  reflexivity.
Defined.

Section NoPanic.

Variable p : Parser.
Hypothesis p_safe : forall fuel, SafeAt fuel p.
Hypothesis p_no_panic : NeverPanics p.

Lemma Many_step_no_panic (q : Parser) fuel st :
  in_bounds st ->
  (forall st1, in_bounds st1 -> q fuel st1 <> Panics) ->
  (forall st1 v st2, q fuel st1 = Returns (Ok v) st2 -> exists xs, v = VList xs) ->
  Bind p (fun x => Bind q (fun xs => Return_appendx x xs)) fuel st <> Panics.
Proof.
  intros Hb Hq Hv. unfold Bind.
  destruct (p fuel st) as [[x|e] s1| |] eqn:E; try discriminate.
  - assert (Hb1 : in_bounds s1)
      by (eapply extends_in_bounds, p_safe; eassumption).
    destruct (q fuel s1) as [[xs|e] s2| |] eqn:Eq; try discriminate.
    + destruct (Hv _ _ _ Eq) as [l Hl]. subst xs. discriminate.
    + intros _. now apply (Hq s1 Hb1).
  - intros _. now apply (p_no_panic fuel st Hb).
Qed.

Lemma Many_no_panic : NeverPanics (Many p).
Proof.
  intros fuel. induction fuel as [|fuel IH]; intros st Hb; [discriminate|].
  rewrite Many_unfold. unfold Either.
  destruct (Many1 p fuel st) as [[x|e] s1| |] eqn:E; try discriminate.
  - destruct (Pos s1 =? Pos st); discriminate.
  - exfalso. revert E. apply Many_step_no_panic; auto.
    intros st1 v st2. apply Many_yields.
Qed.

Lemma Many1_no_panic : NeverPanics (Many1 p).
Proof.
  intros fuel st Hb. apply Many_step_no_panic; auto.
  - intros st1. apply Many_no_panic.
  - intros st1 v st2. apply Many_yields.
Qed.

End NoPanic.

Lemma byte_matcher_no_panic pred p : byte_matcher pred p -> NeverPanics p.
Proof.
  intros Hm fuel st Hb H. specialize (Hm fuel st).
  destruct (next pred st) as [c [|] s1|] eqn:Hn.
  - congruence.
  - destruct Hm as [e Hm]. congruence.
  - apply next_panic in Hn. unfold in_bounds in Hb. lia.
Qed.

Lemma Then_no_panic p1 p2 :
  (forall fuel, SafeAt fuel p1) -> NeverPanics p1 -> NeverPanics p2 ->
  NeverPanics (Then p1 p2).
Proof.
  intros Hs H1 H2 fuel st Hb. unfold Then.
  destruct (p1 fuel st) as [[x|e] s1| |] eqn:E; try discriminate.
  - apply H2. eapply extends_in_bounds, Hs; eassumption.
  - intros _. now apply (H1 fuel st Hb).
Qed.

Lemma ManyTill_no_panic p end_ :
  (forall fuel, SafeAt fuel p) -> (forall fuel, SafeAt fuel end_) ->
  NeverPanics p -> NeverPanics end_ -> NeverPanics (ManyTill p end_).
Proof.
  intros Sp Se Np Ne fuel.
  induction fuel as [|fuel IH]; intros st Hb; [discriminate|].
  rewrite ManyTill_unfold. unfold Either, Then at 1.
  destruct (Try end_ fuel st) as [[x|e] s1| |] eqn:E.
  - discriminate.
  - destruct (Pos s1 =? Pos st); [|discriminate].
    apply Many_step_no_panic; auto.
    + eapply extends_in_bounds, (Safe_Try fuel end_ (Se fuel)); eassumption.
    + intros st1 v st2. apply ManyTill_yields.
  - intros _. unfold Try in E.
    destruct (end_ fuel st) as [[x|e] s1| |] eqn:E1; try discriminate.
    now apply (Ne fuel st Hb).
  - discriminate.
Qed.

(** X20. The repetition combinators add no panic of their own: when [p]
    and [sep] are built from the library and do not panic from a cursor
    within bounds, neither do [Many p], [Many1 p], [ManyTill p sep],
    [SepBy1 p sep] and [SepBy p sep]; the type assertion in [appendx]
    always holds there. *)
Theorem repetitions_never_panic (p sep : Parser) :
  Built p -> Built sep ->
  NeverPanics p -> NeverPanics sep ->
  NeverPanics (Many p) /\ NeverPanics (Many1 p) /\
  NeverPanics (ManyTill p sep) /\
  NeverPanics (SepBy1 p sep) /\ NeverPanics (SepBy p sep).
Proof.
  intros Bp Bs Np Ns.
  pose proof (Built_Safe p Bp) as Sp. pose proof (Built_Safe sep Bs) as Ss.
  assert (H1 : NeverPanics (SepBy1 p sep)).
  { intros fuel st Hb. unfold SepBy1.
    apply Many_step_no_panic; auto.
    - intros st1. apply Many_no_panic.
      + intros f. now apply Safe_Then.
      + now apply Then_no_panic.
    - intros st1 v st2. apply Many_yields. }
  split; [|split; [|split; [|split]]].
  - now apply Many_no_panic.
  - now apply Many1_no_panic.
  - now apply ManyTill_no_panic.
  - exact H1.
  - intros fuel st Hb. unfold SepBy, Or, Either.
    destruct (SepBy1 p sep fuel st) as [[x|e] s1| |] eqn:E;
      try discriminate.
    + destruct (Pos s1 =? Pos st); discriminate.
    + intros _. now apply (H1 fuel st Hb).
Qed.

Lemma repetitions_never_panic_witness :
  NeverPanics (SepBy Digits (Char ",")).
Proof.
  apply (repetitions_never_panic Digits (Char ",")).
  - apply Built_Many1, Built_OneOf.
  - apply Built_Char.
  - apply Many1_no_panic.
    + intros fuel. apply Safe_OneOf.
    + apply (byte_matcher_no_panic _ _ (OneOf_matcher _)).
  - apply (byte_matcher_no_panic _ _ (Char_matcher _)).
Defined.

(** ** Separated lists *)

(** X21. [SepBy p sep] yields the empty sequence, without consuming, when
    the first [p] fails with the position in place.  A separator that is
    not followed by an item is an error: when, after an item, [sep]
    succeeds and [p] then fails with the position moved on, [SepBy] fails
    with that error instead of stopping before the separator. *)
Theorem SepBy_edges (p sep : Parser) (fuel : nat) (st : ParseState) :
  (forall e s1,
      p fuel st = Returns (Err e) s1 -> Pos s1 = Pos st ->
      SepBy p sep fuel st = Returns (Ok (VList [])) s1) /\
  (forall x s1 y s2 e s3,
      p (S fuel) st = Returns (Ok x) s1 ->
      sep fuel s1 = Returns (Ok y) s2 ->
      p fuel s2 = Returns (Err e) s3 ->
      Pos s3 <> Pos s1 -> Pos s3 <> Pos st ->
      SepBy p sep (S fuel) st = Returns (Err e) s3).
Proof.
  split.
  - intros e s1 H Hp. unfold SepBy, Or, Either, SepBy1, Bind.
    rewrite H. now rewrite Hp, Z.eqb_refl.
  - intros x s1 y s2 e s3 H1 H2 H3 N1 N2.
    unfold SepBy, Or, Either, SepBy1, Bind at 1. rewrite H1.
    unfold Bind at 1. rewrite Many_unfold.
    unfold Either, Many1, Bind at 1, Then. rewrite H2, H3.
    apply Z.eqb_neq in N1. apply Z.eqb_neq in N2. now rewrite N1, N2.
Qed.

Lemma SepBy_edges_witness :
  SepBy Digits (Char ",") 2%nat (mkState "x" 0 1)
    = Returns (Ok (VList [])) (mkState "x" 0 1) /\
  SepBy Digits (Char ",") 3%nat (mkState "1," 0 1)
    = Returns
        (Err (mkErr "Expected one of '%s' but got '%c'"
                [ArgString "0123456789"; ArgByte "000"%char] 1))
        (mkState "1," 2 1).
Proof.
  split.
  - apply (proj1 (SepBy_edges Digits (Char ",") 2%nat (mkState "x" 0 1))
             (mkErr "Expected one of '%s' but got '%c'"
                [ArgString "0123456789"; ArgByte "x"%char] 1));
      reflexivity.
  - apply (proj2 (SepBy_edges Digits (Char ",") 2%nat (mkState "1," 0 1))
             (VList [VByte "1"]) (mkState "1," 1 1)
             (VByte ",") (mkState "1," 2 1)).
    + reflexivity.
    + reflexivity.
    + reflexivity.
    + simpl. lia.
    + simpl. lia.
Defined.

Lemma drop_drop (s : string) :
  forall n m, drop (n + m) s = drop m (drop n s).
Proof.
  induction s as [|a s IH]; intros [|n] m; simpl; auto using drop_nil.
Qed.

Lemma newlines_in_app (a b : string) :
  newlines_in (a ++ b) = newlines_in a + newlines_in b.
Proof.
  induction a as [|c a IH]; simpl; [reflexivity|]. rewrite IH. lia.
Qed.

Lemma len_app (a b : string) : len (a ++ b) = len a + len b.
Proof.
  unfold len. induction a as [|c a IH]; simpl String.length; lia.
Qed.

Lemma consumed_app (st : ParseState) (a b : string) :
  consumed (consumed st a) b = consumed st (a ++ b).
Proof.
  unfold consumed. simpl. rewrite len_app, newlines_in_app.
  f_equal; lia.
Qed.

(** Consuming bytes that are there keeps the cursor within bounds and
    leaves the bytes after them. *)
Lemma consumed_rest (st : ParseState) (s : string) :
  in_bounds st ->
  (String.length s <= String.length (rest st))%nat ->
  in_bounds (consumed st s) /\
  rest (consumed st s) = drop (String.length s) (rest st).
Proof.
  intros Hb Hl. pose proof (rest_length st Hb) as Hr.
  unfold in_bounds, consumed, rest, len in *. simpl. split; [lia|].
  replace (Z.to_nat (Pos st + Z.of_nat (String.length s)))
    with (Z.to_nat (Pos st) + String.length s)%nat by lia.
  apply drop_drop.
Qed.

Lemma NoneOf_occurs_matcher set :
  byte_matcher (fun c => negb (occurs c set)) (NoneOf set).
Proof.
  apply (byte_matcher_ext (fun c => IndexByte set c <? 0)).
  - intros c. apply IndexByte_ltb.
  - apply NoneOf_matcher.
Qed.

Section Fields.

Variable set : string.
Variable sep : ascii.

Let outside (c : ascii) : bool := negb (occurs c set).
Let field : Parser := ToString (Many (NoneOf set)).

Lemma fields_not_nil s : fields set sep s <> [].
Proof.
  destruct s as [|c r]; simpl; [discriminate|].
  destruct (occurs c set).
  - destruct (Ascii.eqb c sep); discriminate.
  - destruct (fields set sep r); discriminate.
Qed.

(** The first field is the longest run outside [set]; the other fields
    start after the byte that follows it. *)
Lemma fields_span s :
  fields set sep s =
    span outside s
    :: more_fields set sep (drop (String.length (span outside s)) s).
Proof.
  induction s as [|c r IH]; [reflexivity|].
  unfold outside in *. simpl.
  destruct (occurs c set); simpl.
  - now destruct (Ascii.eqb c sep).
  - now rewrite IH.
Qed.

Lemma concat_sep_before f fs :
  String.concat (String.String sep "") (f :: fs)
  = f ++ sep_before_each sep fs.
Proof.
  revert f. induction fs as [|g fs IH]; intros f.
  - simpl. induction f as [|c f IHf]; simpl; congruence.
  - change (String.concat (String.String sep "") (f :: g :: fs))
      with (f ++ String.String sep ""
              ++ String.concat (String.String sep "") (g :: fs)).
    now rewrite IH.
Qed.

(** One field, read by [Many(NoneOf(set)).ToString()]. *)
Lemma field_run fuel st :
  in_bounds st ->
  (String.length (rest st) < fuel)%nat ->
  field fuel st =
    Returns (Ok (VString (span outside (rest st))))
      (consumed st (span outside (rest st))).
Proof.
  intros Hb Hf. unfold field, ToString, Bind.
  rewrite (Many_byte_run outside (NoneOf set) (NoneOf_occurs_matcher set)
             fuel st Hb).
  - now rewrite bytes_of_byte_values.
  - pose proof (span_length_le outside (rest st)). lia.
Qed.

Lemma more_fields_run fuel :
  forall st,
    in_bounds st ->
    (String.length (rest st) < fuel)%nat ->
    Many (Then (Char sep) field) fuel st =
      Returns (Ok (VList (map VString (more_fields set sep (rest st)))))
        (consumed st (sep_before_each sep (more_fields set sep (rest st)))).
Proof.
  induction fuel as [|fuel IH]; intros st Hb Hf; [lia|].
  rewrite Many_unfold. set (item := Then (Char sep) field) in *.
  unfold Either, Many1, Bind at 1.
  pose proof (byte_matcher_rest _ _ fuel st (Char_matcher sep) Hb) as HC.
  destruct (rest st) as [|c r] eqn:Hr.
  - destruct HC as [e HC].
    assert (HI : item fuel st = Returns (Err e) st)
      by (unfold item, Then; now rewrite HC).
    rewrite HI, Z.eqb_refl. simpl. now rewrite consumed_nil.
  - destruct HC as [HC [Hb1 Hr1]]. simpl in Hf. simpl more_fields.
    destruct (Ascii.eqb c sep) eqn:E.
    + apply Ascii.eqb_eq in E. subst c.
      assert (HI : item fuel st =
                Returns (Ok (VString (span outside r)))
                  (consumed (consumed st (String.String sep ""))
                     (span outside r))).
      { unfold item, Then. rewrite HC.
        rewrite (field_run fuel _ Hb1) by (rewrite Hr1; lia).
        now rewrite Hr1. }
      rewrite HI.
      destruct (consumed_rest (consumed st (String.String sep ""))
                  (span outside r) Hb1) as [Hb2 Hr2].
      { rewrite Hr1. apply span_length_le. }
      rewrite Hr1 in Hr2.
      unfold Bind. rewrite (IH _ Hb2).
      * rewrite Hr2, (fields_span r). simpl.
        now rewrite !consumed_app.
      * rewrite Hr2, drop_length. lia.
    + destruct HC as [e HC].
      assert (HI : item fuel st = Returns (Err e) st)
        by (unfold item, Then; now rewrite HC).
      rewrite HI, Z.eqb_refl. simpl. now rewrite consumed_nil.
Qed.

Lemma SepBy_field_run fuel st :
  in_bounds st ->
  (String.length (rest st) < fuel)%nat ->
  SepBy field (Char sep) fuel st =
    Returns (Ok (VList (map VString (fields set sep (rest st)))))
      (consumed st
         (String.concat (String.String sep "") (fields set sep (rest st)))).
Proof.
  intros Hb Hf. unfold SepBy, Or, Either, SepBy1, Bind at 1.
  rewrite (field_run fuel st Hb Hf).
  destruct (consumed_rest st (span outside (rest st)) Hb
              (span_length_le _ _)) as [Hb1 Hr1].
  unfold Bind. rewrite (more_fields_run fuel _ Hb1).
  - rewrite Hr1, (fields_span (rest st)), concat_sep_before. simpl.
    now rewrite consumed_app.
  - rewrite Hr1, drop_length. lia.
Qed.

(** The fields, joined by [sep], are the bytes the input starts with. *)
Lemma fields_prefix s :
  String.prefix (String.concat (String.String sep "") (fields set sep s)) s
  = true.
Proof.
  induction s as [|c r IH]; [reflexivity|].
  simpl fields. destruct (occurs c set).
  - destruct (Ascii.eqb c sep) eqn:E; [|reflexivity].
    apply Ascii.eqb_eq in E. subst c.
    rewrite concat_sep_before. simpl.
    destruct (fields set sep r) as [|f fs] eqn:F;
      [now apply fields_not_nil in F|].
    rewrite concat_sep_before in IH. simpl.
    destruct (ascii_dec sep sep); [exact IH | congruence].
  - destruct (fields set sep r) as [|f fs] eqn:F;
      [now apply fields_not_nil in F|].
    rewrite concat_sep_before in *. simpl.
    destruct (ascii_dec c c); [exact IH | congruence].
Qed.

End Fields.

(** X22. [Many(NoneOf(set)).ToString()] separated by [Char(sep)] splits the
    first record of what is left into its fields: it succeeds with the
    fields in order as strings, a field being a longest run of bytes
    outside [set] and [sep] standing between two fields, and it consumes
    exactly the fields and the separators between them. *)
Theorem SepBy_splits_fields (set : string) (sep : ascii) (fuel : nat)
    (st : ParseState) :
  in_bounds st ->
  (String.length (rest st) < fuel)%nat ->
  SepBy (ToString (Many (NoneOf set))) (Char sep) fuel st =
    Returns (Ok (VList (map VString (fields set sep (rest st)))))
      (consumed st
         (String.concat (String.String sep "") (fields set sep (rest st))))
  /\
  String.prefix
    (String.concat (String.String sep "") (fields set sep (rest st)))
    (rest st) = true.
Proof.
  intros Hb Hf. split.
  - now apply SepBy_field_run.
  - apply fields_prefix.
Qed.

Lemma SepBy_splits_fields_witness :
  line 24%nat (mkState csv_input 0 1)
    = Returns (Ok (VList [VString "foo"; VString "bar"]))
        (mkState csv_input 7 1).
Proof.
  apply (proj1 (SepBy_splits_fields
                  (String.String "," (String.String newline "")) ","
                  24%nat (mkState csv_input 0 1)
                  ltac:(vm_compute; split; discriminate)
                  ltac:(vm_compute; lia))).
Defined.

(** ** Line numbers without backtracking *)

Lemma count_newlines_succ (s : string) :
  forall n c,
    String.get n s = Some c ->
    count_newlines s (S n)
    = count_newlines s n + (if Ascii.eqb c newline then 1 else 0).
Proof.
  induction s as [|a s IH]; intros [|n] c H; simpl in H; try discriminate.
  - inversion H; subst. simpl. destruct s; simpl; lia.
  - specialize (IH n c H).
    change (count_newlines (String.String a s) (S (S n)))
      with ((if Ascii.eqb a newline then 1 else 0)
            + count_newlines s (S n)).
    change (count_newlines (String.String a s) (S n))
      with ((if Ascii.eqb a newline then 1 else 0) + count_newlines s n).
    lia.
Qed.

Lemma in_step_refl st : in_bounds st -> in_step st st.
Proof. intros H. split; [now apply extends_refl | reflexivity]. Qed.

Lemma in_step_trans st1 st2 st3 :
  in_step st1 st2 -> in_step st2 st3 -> in_step st1 st3.
Proof.
  intros [E1 L1] [E2 L2]. split; [eapply extends_trans; eassumption | lia].
Qed.

Lemma in_step_in_bounds st st' : in_step st st' -> in_bounds st'.
Proof. intros [H _]. eapply extends_in_bounds, H. Qed.

Lemma next_in_step pred st c ok st' :
  in_bounds st -> next pred st = NextRet c ok st' -> in_step st st'.
Proof.
  intros Hb H. split; [eapply next_extends; eassumption|].
  destruct (next_inv _ _ _ _ _ H) as [[_ Hs]|[_ [Hr [Hc [_ Hs]]]]]; subst st'.
  - reflexivity.
  - unfold newlines_before. simpl.
    replace (Z.to_nat (Pos st + 1)) with (S (Z.to_nat (Pos st))) by lia.
    rewrite (count_newlines_succ _ _ _ Hc).
    destruct (Ascii.eqb c newline); lia.
Qed.

Section InStepCombinators.

Variable fuel : nat.

Lemma InStep_panic : InStepAt fuel panic.
Proof. intros st r st' _ H. discriminate. Qed.

Lemma InStep_Return x : InStepAt fuel (Return x).
Proof.
  intros st r st' Hb H. inversion H; subst. now apply in_step_refl.
Qed.

Lemma InStep_Fail msg : InStepAt fuel (Fail msg).
Proof.
  intros st r st' Hb H. inversion H; subst. now apply in_step_refl.
Qed.

Lemma InStep_byte_matcher pred p : byte_matcher pred p -> InStepAt fuel p.
Proof.
  intros Hm st r st' Hb H. specialize (Hm fuel st).
  destruct (next pred st) as [c [|] s1|] eqn:Hn.
  - rewrite Hm in H. inversion H; subst.
    eapply next_in_step; eassumption.
  - destruct Hm as [e Hm]. rewrite Hm in H. inversion H; subst.
    eapply next_in_step; eassumption.
  - congruence.
Qed.

Lemma InStep_Eof : InStepAt fuel Eof.
Proof.
  intros st r st' Hb H. unfold Eof in H.
  destruct (next (fun _ => true) st) as [c [|] s1|] eqn:Hn;
    inversion H; subst; eapply next_in_step; eassumption.
Qed.

Lemma InStep_Bind p f :
  InStepAt fuel p -> (forall x, InStepAt fuel (f x)) ->
  InStepAt fuel (Bind p f).
Proof.
  intros Hp Hf st r st' Hb H. unfold Bind in H.
  destruct (p fuel st) as [[x|e] s1| |] eqn:E; try discriminate.
  - pose proof (Hp _ _ _ Hb E) as H1.
    eapply in_step_trans; [exact H1|].
    eapply Hf; [|exact H]. eapply in_step_in_bounds, H1.
  - inversion H; subst. eapply Hp; eassumption.
Qed.

Lemma InStep_Then p1 p2 :
  InStepAt fuel p1 -> InStepAt fuel p2 -> InStepAt fuel (Then p1 p2).
Proof.
  intros H1 H2 st r st' Hb H. unfold Then in H.
  destruct (p1 fuel st) as [[x|e] s1| |] eqn:E; try discriminate.
  - pose proof (H1 _ _ _ Hb E) as HS.
    eapply in_step_trans; [exact HS|].
    eapply H2; [|exact H]. eapply in_step_in_bounds, HS.
  - inversion H; subst. eapply H1; eassumption.
Qed.

Lemma InStep_Either p1 p2 :
  InStepAt fuel p1 -> InStepAt fuel p2 -> InStepAt fuel (Either p1 p2).
Proof.
  intros H1 H2 st r st' Hb H. unfold Either in H.
  destruct (p1 fuel st) as [[x|e] s1| |] eqn:E; try discriminate.
  - inversion H; subst. eapply H1; eassumption.
  - pose proof (H1 _ _ _ Hb E) as HS.
    destruct (Pos s1 =? Pos st).
    + eapply in_step_trans; [exact HS|].
      eapply H2; [|exact H]. eapply in_step_in_bounds, HS.
    + inversion H; subst. exact HS.
Qed.

Lemma InStep_Return_appendx x xs : InStepAt fuel (Return_appendx x xs).
Proof.
  unfold Return_appendx. destruct (appendx x xs).
  - apply InStep_Return.
  - apply InStep_panic.
Qed.

Lemma InStep_ToString p : InStepAt fuel p -> InStepAt fuel (ToString p).
Proof.
  intros Hp. unfold ToString. apply InStep_Bind; [exact Hp|].
  intros [| |s|xs]; try apply InStep_panic.
  destruct (bytes_of xs); [apply InStep_Return | apply InStep_panic].
Qed.

Lemma InStep_Many1 p :
  InStepAt fuel p -> InStepAt fuel (Many p) -> InStepAt fuel (Many1 p).
Proof.
  intros Hp HM. unfold Many1. apply InStep_Bind; [exact Hp|].
  intros x. apply InStep_Bind; [exact HM|].
  intros xs. apply InStep_Return_appendx.
Qed.

Lemma InStep_Skip p : InStepAt fuel p -> InStepAt fuel (Skip p).
Proof.
  intros Hp. unfold Skip, Or.
  apply InStep_Either; [apply InStep_Then|]; auto using InStep_Return.
Qed.

Lemma InStep_Between p start end_ :
  InStepAt fuel p -> InStepAt fuel start -> InStepAt fuel end_ ->
  InStepAt fuel (Between p start end_).
Proof.
  intros Hp Hs He. unfold Between.
  apply InStep_Then; [exact Hs|]. apply InStep_Bind; [exact Hp|].
  intros x. apply InStep_Then; [exact He | apply InStep_Return].
Qed.

End InStepCombinators.

Lemma InStep_Many p :
  (forall fuel, InStepAt fuel p) -> forall fuel, InStepAt fuel (Many p).
Proof.
  intros Hp fuel. induction fuel as [|fuel IH].
  - intros st r st' _ H. discriminate.
  - intros st r st' Hb H. rewrite Many_unfold in H. revert st r st' Hb H.
    apply (InStep_Either fuel); [|apply InStep_Return].
    apply InStep_Many1; auto.
Qed.

Lemma InStep_SepBy1 p sep :
  (forall fuel, InStepAt fuel p) -> (forall fuel, InStepAt fuel sep) ->
  forall fuel, InStepAt fuel (SepBy1 p sep).
Proof.
  intros Hp Hs fuel. unfold SepBy1.
  apply InStep_Bind; [apply Hp|]. intros x.
  apply InStep_Bind; [|intros xs; apply InStep_Return_appendx].
  apply InStep_Many. intros f. now apply InStep_Then.
Qed.

Lemma Forward_InStep p : Forward p -> forall fuel, InStepAt fuel p.
Proof.
  induction 1; intros fuel.
  - apply (InStep_byte_matcher fuel _ _ AnyChar_matcher).
  - apply InStep_Eof.
  - apply (InStep_byte_matcher fuel _ _ (Char_matcher c)).
  - apply (InStep_byte_matcher fuel _ _ (OneOf_matcher set)).
  - apply (InStep_byte_matcher fuel _ _ (NoneOf_matcher set)).
  - apply InStep_Return.
  - apply InStep_Fail.
  - apply InStep_Bind; auto.
  - apply InStep_Then; auto.
  - apply InStep_Either; auto.
  - apply InStep_Either; auto.
  - apply InStep_ToString; auto.
  - apply InStep_Many1; auto. now apply InStep_Many.
  - now apply InStep_Many.
  - apply InStep_Skip; auto.
  - apply InStep_Skip. now apply InStep_Many.
  - apply InStep_Between; auto.
  - now apply InStep_SepBy1.
  - apply InStep_Either; [now apply InStep_SepBy1 | apply InStep_Return].
Qed.

Lemma Forward_Built p : Forward p -> Built p.
Proof.
  induction 1; try (now constructor).
Qed.

(** X23. Without [Try], [String] and [ManyTill] the line counter is exact:
    a parser built from the other primitives and combinators, started as
    [Parse] starts it (position 0, line 1), returns with the line counter
    at one plus the number of newlines before the position it returns
    with, and a failure carries that line. *)
Theorem Forward_lines_exact (p : Parser) (fuel : nat) (source : string)
    (r : Result) (st' : ParseState) :
  Forward p ->
  p fuel (mkState source 0 1) = Returns r st' ->
  Line st' = 1 + newlines_before st' /\
  match r with
  | Ok _ => True
  | Err e => ErrLine e = 1 + newlines_before st'
  end.
Proof.
  intros HF H.
  assert (Hb : in_bounds (mkState source 0 1)).
  { unfold in_bounds, len. simpl. lia. }
  destruct (Forward_InStep p HF fuel _ _ _ Hb H) as [_ HL].
  assert (H0 : newlines_before (mkState source 0 1) = 0).
  { unfold newlines_before. simpl. now destruct source. }
  rewrite H0 in HL. cbn [Line] in HL.
  assert (HL' : Line st' = 1 + newlines_before st') by lia.
  split; [exact HL'|].
  destruct r as [x|e]; [exact I|].
  pose proof (Built_Sound p (Forward_Built p HF) fuel _ _ _ H) as [_ HE].
  simpl in HE. congruence.
Qed.

Lemma Forward_lines_exact_witness :
  Line (mkState nl_y 1 2) = 1 + newlines_before (mkState nl_y 1 2) /\
  ErrLine (mkErr "Expected '%c'" [ArgByte "x"%char] 2)
    = 1 + newlines_before (mkState nl_y 1 2).
Proof.
  apply (Forward_lines_exact (Then (Char newline) (Char "x")) 0%nat nl_y
           (Err (mkErr "Expected '%c'" [ArgByte "x"%char] 2))).
  - apply Forward_Then; apply Forward_Char.
  - reflexivity.
Defined.

(** ** Repetition of a parser that holds a repetition *)

Lemma Many1_byte_fails_in_place pred p fuel st e st' :
  byte_matcher pred p ->
  Many1 p fuel st = Returns (Err e) st' -> Pos st' = Pos st.
Proof.
  intros Hm H.
  assert (Hp : forall f s e0 s', p f s = Returns (Err e0) s' -> Pos s' = Pos s).
  { intros f s e0 s' Hf. specialize (Hm f s).
    destruct (next pred s) as [c [|] s1|] eqn:Hn.
    - congruence.
    - destruct Hm as [e1 Hm]. rewrite Hm in Hf. inversion Hf; subst.
      destruct (next_inv _ _ _ _ _ Hn) as [[_ Hs]|[Hk _]];
        [now subst | discriminate].
    - congruence. }
  destruct (Many1_failure p _ _ _ _ H) as [H1|[x [s1 [_ HM]]]].
  - eapply Hp; eassumption.
  - exfalso. exact (Many_never_fails p Hp _ _ _ _ HM).
Qed.

Lemma Many1_byte_returns pred p st :
  byte_matcher pred p -> Mono (Many1 p) -> in_bounds st ->
  exists fuel0 r st',
  forall fuel, (fuel0 <= fuel)%nat -> Many1 p fuel st = Returns r st'.
Proof.
  intros Hm HM Hb.
  set (f0 := S (String.length (rest st))).
  assert (H0 : exists r st', Many1 p f0 st = Returns r st').
  { pose proof (Many1_byte_run pred p Hm f0 st Hb) as H.
    pose proof (span_length_le pred (rest st)) as Hl.
    destruct (span pred (rest st)) as [|c run].
    - destruct H as [e H]. eauto.
    - simpl in Hl. rewrite H by (unfold f0; lia). eauto. }
  destruct H0 as [r [st' H0]]. exists f0, r, st'. intros fuel Hle.
  rewrite (HM f0 fuel Hle st); [exact H0|]. rewrite H0. discriminate.
Qed.

Lemma Many1_byte_consumes pred p fuel st x st' :
  byte_matcher pred p -> Mono (Many1 p) ->
  in_bounds st -> Many1 p fuel st = Returns (Ok x) st' ->
  in_bounds st' /\ (remaining st' < remaining st)%nat.
Proof.
  intros Hm HM Hb H.
  set (big := (fuel + S (String.length (rest st)))%nat).
  assert (Hbig : Many1 p big st = Returns (Ok x) st').
  { rewrite (HM fuel big ltac:(unfold big; lia) st); [exact H|].
    rewrite H. discriminate. }
  pose proof (Many1_byte_run pred p Hm big st Hb) as HR.
  pose proof (span_length_le pred (rest st)) as Hl.
  destruct (span pred (rest st)) as [|c run] eqn:Hs.
  - destruct HR as [e HR]. congruence.
  - simpl in Hl. rewrite HR in Hbig by (unfold big; lia).
    inversion Hbig; subst.
    destruct (consumed_rest st (String.String c run) Hb Hl) as [Hb1 Hr1].
    split; [exact Hb1|].
    rewrite (remaining_rest _ Hb1), (remaining_rest _ Hb), Hr1, drop_length.
    simpl in *. lia.
Qed.

Lemma Many_totality_witness :
  (forall fuel st e st', Many Digits fuel st <> Returns (Err e) st') /\
  (forall fuel st,
      (exists e st', Many1 Digits fuel st = Returns (Err e) st') <->
      (exists e st', Digits fuel st = Returns (Err e) st')) /\
  (exists xs st',
     Many Space 4 (mkState "  x" 0 1) = Returns (Ok (VList xs)) st') /\
  (exists fuel0 xs st',
   forall fuel, (fuel0 <= fuel)%nat ->
   Many Digits fuel (mkState "12" 0 1) = Returns (Ok (VList xs)) st').
Proof.
  assert (HD : forall fuel st e st',
             Digits fuel st = Returns (Err e) st' -> Pos st' = Pos st).
  { intros fuel st e st'.
    apply (Many1_byte_fails_in_place _ Digit fuel st e st'
             (OneOf_matcher "0123456789")). }
  assert (HS : forall fuel st e st',
             Space fuel st = Returns (Err e) st' -> Pos st' = Pos st).
  { intros fuel st e st' H. apply OneOf_failure in H. now subst. }
  assert (HM : Mono Digits).
  { apply Built_Mono, Built_Many1, Built_OneOf. }
  destruct (Many_totality Digits HD) as [D1 [D2 [_ D4]]].
  destruct (Many_totality Space HS) as [_ [_ [S3 _]]].
  split; [exact D1|]. split; [exact D2|]. split.
  - apply S3.
    + intros fuel st Hb. now apply OneOf_returns.
    + intros fuel st x st' Hb H. apply OneOf_success in H.
      destruct H as [Hr [Hs Hp]].
      unfold in_bounds, remaining. rewrite Hs, Hp. split; lia.
    + vm_compute. split; discriminate.
    + vm_compute. lia.
  - apply D4.
    + intros st Hb.
      apply (Many1_byte_returns _ Digit st (OneOf_matcher "0123456789")
               HM Hb).
    + intros fuel st x st' Hb H.
      apply (Many1_byte_consumes _ Digit fuel st x st'
               (OneOf_matcher "0123456789") HM Hb H).
    + vm_compute. split; discriminate.
Defined.
